(** * The causal reasoning engine (class [CausalReasoning])

    A shallow embedding of the causal graph engine of the Mind layer:
    the link store with its two indexes, the three traversals
    ([predictEffect], [explainEffect], [findCausalPaths]), the
    intervention engine, the belief updater and the discovery heuristic,
    together with the helpers of [foundation/utils.ts] they call.

    JavaScript values are embedded as follows.
    - [EntityId] is [string].
    - A JS [number] is a type [num] with the operations of the class
      [JSNumber].  Two instances are given: [float], the IEEE 754
      binary64 numbers the program runs on, and [Q], exact rationals, on
      which the arithmetic laws are proved.
    - A JS [Set] is a duplicate-free list in insertion order ([JSSet]).
    - A JS [Map] that is only read with [get]/[has] and written with
      [set] is a [gmap]; a [Map] that is iterated is an association list
      in insertion order ([JSMap]).
    - The object fields of the class are the fields of the record
      [CausalReasoning]; a method is a function from the state to the
      result and the new state.
    - [Date.now()] and [Math.random()] read the record [World]. *)

From Stdlib Require Import Ascii String Floats QArith Qabs Lqa.
From stdpp Require Import gmap strings list sorting.

Set Default Proof Using "Type".
#[local] Set Warnings "-inexact-float".
Local Open Scope string_scope.

(** ** Numbers *)

(** The operations on numbers the engine uses.  The decimal constants
    are fields so that each instance can give the value its own literal
    denotes. *)
Class JSNumber (num : Type) := {
  n0 : num;
  n0_1 : num;
  n0_5 : num;
  n0_6 : num;
  n0_7 : num;
  n0_8 : num;
  n1 : num;
  nadd : num -> num -> num;
  nsub : num -> num -> num;
  nmul : num -> num -> num;
  ndiv : num -> num -> num;
  (** [ngt a b] is the JS comparison [a > b]. *)
  ngt : num -> num -> bool;
  (** [Math.min(a, b)] and [Math.abs(a)]. *)
  Math_min : num -> num -> num;
  Math_abs : num -> num;
  (** JS falsiness of a number: it is [0], [-0] or [NaN]. *)
  falsy : num -> bool;
  (** The number denoted by an array length. *)
  of_length : nat -> num
}.

(** [Math.sqrt], needed by the discovery heuristic only. *)
Class JSSqrt (num : Type) := Math_sqrt : num -> num.

Declare Scope num_scope.
Delimit Scope num_scope with num.
Infix "+" := nadd : num_scope.
Infix "-" := nsub : num_scope.
Infix "*" := nmul : num_scope.
Infix "/" := ndiv : num_scope.
Infix ">?" := ngt (at level 70) : num_scope.

(** *** binary64 *)

(** [Math.min]: [NaN] if an argument is; of two zeros the negative one. *)
Definition float_min (a b : float) : float :=
  if (PrimFloat.is_nan a || PrimFloat.is_nan b)%bool then PrimFloat.nan
  else if PrimFloat.ltb b a then b
  else if PrimFloat.ltb a b then a
  else if PrimFloat.get_sign b then b else a.

(** Array lengths are below 2^32, so the conversion is exact. *)
Definition float_of_length (n : nat) : float :=
  PrimFloat.of_uint63 (Uint63.of_Z (Z.of_nat n)).

#[export] Instance float_number : JSNumber float := {|
  n0 := 0%float;
  n0_1 := 0.1%float;
  n0_5 := 0.5%float;
  n0_6 := 0.6%float;
  n0_7 := 0.7%float;
  n0_8 := 0.8%float;
  n1 := 1%float;
  nadd := PrimFloat.add;
  nsub := PrimFloat.sub;
  nmul := PrimFloat.mul;
  ndiv := PrimFloat.div;
  ngt := fun a b => PrimFloat.ltb b a;
  Math_min := float_min;
  Math_abs := PrimFloat.abs;
  falsy := fun a => (PrimFloat.eqb a 0 || PrimFloat.is_nan a)%bool;
  of_length := float_of_length
|}.

#[export] Instance float_sqrt : JSSqrt float := PrimFloat.sqrt.

(** *** Exact rationals *)

Definition Qgt_bool (a b : Q) : bool := negb (Qle_bool a b).

Definition Q_min (a b : Q) : Q := if Qgt_bool a b then b else a.

#[export] Instance Q_number : JSNumber Q := {|
  n0 := 0%Q;
  n0_1 := (1 # 10)%Q;
  n0_5 := (1 # 2)%Q;
  n0_6 := (6 # 10)%Q;
  n0_7 := (7 # 10)%Q;
  n0_8 := (8 # 10)%Q;
  n1 := 1%Q;
  nadd := Qplus;
  nsub := Qminus;
  nmul := Qmult;
  ndiv := Qdiv;
  ngt := Qgt_bool;
  Math_min := Q_min;
  Math_abs := Qabs;
  falsy := fun a => Qeq_bool a 0;
  of_length := fun n => inject_Z (Z.of_nat n)
|}.

(** ** Identifiers, sets and iterated maps *)

Abbreviation EntityId := string (only parsing).

(** [Set<EntityId>]: insertion order, no duplicates. *)
Abbreviation JSSet := (list string) (only parsing).

Definition set_has (s : JSSet) (x : EntityId) : bool :=
  existsb (String.eqb x) s.

Definition set_add (x : EntityId) (s : JSSet) : JSSet :=
  if set_has s x then s else s ++ [x].

Definition set_delete (x : EntityId) (s : JSSet) : JSSet :=
  List.filter (fun y => negb (String.eqb x y)) s.

(** [Map<string, V>] when the program iterates over it: entries in
    insertion order.  [Map.prototype.set] keeps the position of a key
    that is already present. *)
Abbreviation JSMap V := (list (string * V)) (only parsing).

Fixpoint map_get {V} (m : JSMap V) (k : string) : option V :=
  match m with
  | [] => None
  | (k', v) :: m' => if String.eqb k k' then Some v else map_get m' k
  end.

Fixpoint map_set {V} (k : string) (v : V) (m : JSMap V) : JSMap V :=
  match m with
  | [] => [(k, v)]
  | (k', v') :: m' =>
      if String.eqb k k' then (k, v) :: m' else (k', v') :: map_set k v m'
  end.

(** [m.get(k) || d] for a map of numbers. *)
Definition get_or {num} `{JSNumber num} (v : option num) (d : num) : num :=
  match v with
  | Some x => if falsy x then d else x
  | None => d
  end.

(** [String.prototype.split] with a one-character separator. *)
Fixpoint split (sep : ascii) (s : string) : list string :=
  match s with
  | EmptyString => [EmptyString]
  | String c s' =>
      if Ascii.eqb c sep then EmptyString :: split sep s'
      else
        match split sep s' with
        | part :: parts => String c part :: parts
        | [] => [String c EmptyString]
        end
  end.

Definition map_keys {V} (m : JSMap V) : list string := List.map fst m.

(** A list of entries is a [Map] when no key occurs twice. *)
Definition is_map {V} (m : JSMap V) : Prop := NoDup (map_keys m).

(** ** Data model ([foundation/types.ts]) *)

(** The engine reads nothing of a concept but its [id]. *)
Record Concept := { concept_id : EntityId }.

Inductive EvidenceType := observation | experiment | testimony | inference.

Record Evidence (num : Type) := {
  ev_id : EntityId;
  ev_type : EvidenceType;
  ev_source : string;
  reliability : num;
  timestamp : Z;
  supportsHypothesis : option EntityId;
  contradictsHypothesis : option EntityId
}.
Arguments ev_id {num}.
Arguments ev_type {num}.
Arguments ev_source {num}.
Arguments reliability {num}.
Arguments timestamp {num}.
Arguments supportsHypothesis {num}.
Arguments contradictsHypothesis {num}.

Record CausalLink (num : Type) := {
  link_id : EntityId;
  cause : EntityId;
  effect : EntityId;
  mechanism : option string;
  necessity : num;
  sufficiency : num;
  timeDelay : num;
  conditions : list Concept;
  strength : num;
  evidence : list (Evidence num)
}.
Arguments link_id {num}.
Arguments cause {num}.
Arguments effect {num}.
Arguments mechanism {num}.
Arguments necessity {num}.
Arguments sufficiency {num}.
Arguments timeDelay {num}.
Arguments conditions {num}.
Arguments strength {num}.
Arguments evidence {num}.

(** [nodes] and [edges] hold references to objects owned elsewhere; the
    engine only ever writes them and reads their size, so their key
    sets are kept. *)
Record CausalGraph (num : Type) := {
  graph_id : EntityId;
  nodes : JSSet;
  edges : JSSet;
  domain : string;
  graph_confidence : num;
  created : Z;
  lastUpdated : Z
}.
Arguments graph_id {num}.
Arguments nodes {num}.
Arguments edges {num}.
Arguments domain {num}.
Arguments graph_confidence {num}.
Arguments created {num}.
Arguments lastUpdated {num}.

Record Observation (V : Type) := {
  variables : JSMap V;
  outcome : EntityId
}.
Arguments variables {V}.
Arguments outcome {V}.

Record CausalInferenceResult (num : Type) := {
  prediction : Concept;
  confidence : num;
  causalPath : list (CausalLink num);
  explanation : string
}.
Arguments prediction {num}.
Arguments confidence {num}.
Arguments causalPath {num}.
Arguments explanation {num}.

(** The private fields of [CausalReasoning]. *)
Record CausalReasoning (num : Type) := {
  graphs : gmap string (CausalGraph num);
  links : gmap string (CausalLink num);
  linksByCause : gmap string (list string);
  linksByEffect : gmap string (list string)
}.
Arguments graphs {num}.
Arguments links {num}.
Arguments linksByCause {num}.
Arguments linksByEffect {num}.

(** ** The environment: clock and random source *)

(** [dateNow i] is what the [i]-th call of [Date.now()] returns and
    [mathRandom i] what the [i]-th call of [Math.random()] returns;
    [clockReads] and [randomReads] count the calls made so far.
    [fraction36] is [Number.prototype.toString(36)] on the result of
    [Math.random()], which ECMA-262 leaves to the implementation. *)
Record World (num : Type) := {
  dateNow : nat -> Z;
  mathRandom : nat -> num;
  fraction36 : num -> string;
  clockReads : nat;
  randomReads : nat
}.
Arguments dateNow {num}.
Arguments mathRandom {num}.
Arguments fraction36 {num}.
Arguments clockReads {num}.
Arguments randomReads {num}.

Definition Date_now {num} (w : World num) : Z * World num :=
  (dateNow w (clockReads w),
   {| dateNow := dateNow w; mathRandom := mathRandom w;
      fraction36 := fraction36 w;
      clockReads := S (clockReads w); randomReads := randomReads w |}).

Definition Math_random {num} (w : World num) : num * World num :=
  (mathRandom w (randomReads w),
   {| dateNow := dateNow w; mathRandom := mathRandom w;
      fraction36 := fraction36 w;
      clockReads := clockReads w; randomReads := S (randomReads w) |}).

(** ** [foundation/utils.ts] *)

Definition digit36 (d : N) : ascii :=
  match String.get (N.to_nat d) "0123456789abcdefghijklmnopqrstuvwxyz" with
  | Some c => c
  | None => "0"%char
  end.

Fixpoint digits36 (fuel : nat) (n : N) (acc : string) : string :=
  match fuel with
  | O => acc
  | S fuel' =>
      let acc' := String (digit36 (n mod 36)) acc in
      if (n / 36 =? 0)%N then acc' else digits36 fuel' (n / 36) acc'
  end.

(** [toString(36)] of an integer. *)
Definition integer36 (z : Z) : string :=
  let n := Z.to_N (Z.abs z) in
  let s := digits36 (S (N.size_nat n)) n "" in
  if (z <? 0)%Z then "-" ++ s else s.

(** JS truthiness of an optional string: absent and empty are falsy. *)
Definition truthy (s : option string) : option string :=
  match s with
  | Some "" => None
  | _ => s
  end.

Definition generateId {num} (prefix : option string) (w : World num)
  : EntityId * World num :=
  let '(t, w) := Date_now w in
  let timestamp := integer36 t in
  let '(r, w) := Math_random w in
  let randomPart := String.substring 2 13 (fraction36 w r) in
  let id := timestamp ++ "-" ++ randomPart in
  (match truthy prefix with
   | Some p => p ++ ":" ++ id
   | None => id
   end, w).

Definition now {num} (w : World num) : Z * World num := Date_now w.

Section Engine.
Context {num : Type} `{JSNumber num}.
Local Open Scope num_scope.

(** [bayesianUpdate(priorBelief, likelihoodIfTrue, likelihoodIfFalse)]. *)
Definition bayesianUpdate (priorBelief likelihoodIfTrue likelihoodIfFalse : num)
  : num :=
  let numerator := likelihoodIfTrue * priorBelief in
  let denominator := numerator + likelihoodIfFalse * (n1 - priorBelief) in
  if denominator >? n0 then numerator / denominator else priorBelief.

(** ** Causal graph management *)

Definition empty_engine : CausalReasoning num :=
  {| graphs := ∅; links := ∅; linksByCause := ∅; linksByEffect := ∅ |}.

Definition set_graphs (st : CausalReasoning num) g : CausalReasoning num :=
  {| graphs := g; links := links st;
     linksByCause := linksByCause st; linksByEffect := linksByEffect st |}.

Definition set_links (st : CausalReasoning num) l : CausalReasoning num :=
  {| graphs := graphs st; links := l;
     linksByCause := linksByCause st; linksByEffect := linksByEffect st |}.

Definition set_linksByCause (st : CausalReasoning num) m : CausalReasoning num :=
  {| graphs := graphs st; links := links st;
     linksByCause := m; linksByEffect := linksByEffect st |}.

Definition set_linksByEffect (st : CausalReasoning num) m : CausalReasoning num :=
  {| graphs := graphs st; links := links st;
     linksByCause := linksByCause st; linksByEffect := m |}.

Definition createGraph (w : World num) (st : CausalReasoning num)
  (dom : string) : CausalGraph num * CausalReasoning num * World num :=
  let '(gid, w) := generateId (Some "graph") w in
  let '(t1, w) := now w in
  let '(t2, w) := now w in
  let graph :=
    {| graph_id := gid; nodes := []; edges := []; domain := dom;
       graph_confidence := n0_5; created := t1; lastUpdated := t2 |} in
  (graph, set_graphs st (<[dom := graph]> (graphs st)), w).

Definition getGraph (w : World num) (st : CausalReasoning num)
  (dom : string) : CausalGraph num * CausalReasoning num * World num :=
  match graphs st !! dom with
  | Some graph => (graph, st, w)
  | None => createGraph w st dom
  end.

(** The graph object is the one held by [graphs] under [dom]; a write to
    one of its fields is a write to that entry. *)
Definition addNode (w : World num) (st : CausalReasoning num)
  (dom : string) (concept : Concept) : CausalReasoning num * World num :=
  let '(graph, st, w) := getGraph w st dom in
  let '(t, w) := now w in
  let graph :=
    {| graph_id := graph_id graph;
       nodes := set_add (concept_id concept) (nodes graph);
       edges := edges graph; domain := domain graph;
       graph_confidence := graph_confidence graph;
       created := created graph; lastUpdated := t |} in
  (set_graphs st (<[dom := graph]> (graphs st)), w).

(** ** Causal link operations *)

(** [index_add m k id]: create the set under [k] if there is none, then
    add [id] to it. *)
Definition index_add (m : gmap string (list string)) (k id : EntityId)
  : gmap string (list string) :=
  <[k := set_add id (default [] (m !! k))]> m.

Definition storeLink (st : CausalReasoning num) (link : CausalLink num)
  : CausalReasoning num :=
  {| graphs := graphs st;
     links := <[link_id link := link]> (links st);
     linksByCause := index_add (linksByCause st) (cause link) (link_id link);
     linksByEffect := index_add (linksByEffect st) (effect link) (link_id link) |}.

Definition addEdge (w : World num) (st : CausalReasoning num)
  (dom : string) (link : CausalLink num) : CausalReasoning num * World num :=
  let '(graph, st, w) := getGraph w st dom in
  let '(t, w) := now w in
  let graph :=
    {| graph_id := graph_id graph; nodes := nodes graph;
       edges := set_add (link_id link) (edges graph); domain := domain graph;
       graph_confidence := graph_confidence graph;
       created := created graph; lastUpdated := t |} in
  (storeLink (set_graphs st (<[dom := graph]> (graphs st))) link, w).

(** [createLink(cause, effect, strength = 0.5, necessity = 0.5,
    sufficiency = 0.5, mechanism?, timeDelay = 0)]: an argument left out
    is [None]. *)
Definition createLink (w : World num) (st : CausalReasoning num)
  (cause_ effect_ : EntityId) (strength_ necessity_ sufficiency_ : option num)
  (mechanism_ : option string) (timeDelay_ : option num)
  : CausalLink num * CausalReasoning num * World num :=
  let '(id, w) := generateId (Some "causal") w in
  let link :=
    {| link_id := id;
       cause := cause_;
       effect := effect_;
       mechanism := mechanism_;
       necessity := default n0_5 necessity_;
       sufficiency := default n0_5 sufficiency_;
       timeDelay := default n0 timeDelay_;
       conditions := [];
       strength := default n0_5 strength_;
       evidence := [] |} in
  (link, storeLink st link, w).

Definition getLink (st : CausalReasoning num) (id : EntityId)
  : option (CausalLink num) :=
  links st !! id.

Definition getEffects (st : CausalReasoning num) (cause_ : EntityId)
  : list (CausalLink num) :=
  let linkIds := default [] (linksByCause st !! cause_) in
  omap (fun id => links st !! id) linkIds.

Definition getCauses (st : CausalReasoning num) (effect_ : EntityId)
  : list (CausalLink num) :=
  let linkIds := default [] (linksByEffect st !! effect_) in
  omap (fun id => links st !! id) linkIds.

Definition findLink (st : CausalReasoning num) (cause_ effect_ : EntityId)
  : option (CausalLink num) :=
  List.find (fun link => String.eqb (effect link) effect_) (getEffects st cause_).

Definition set_strength (link : CausalLink num) (s : num) : CausalLink num :=
  {| link_id := link_id link; cause := cause link; effect := effect link;
     mechanism := mechanism link; necessity := necessity link;
     sufficiency := sufficiency link; timeDelay := timeDelay link;
     conditions := conditions link; strength := s;
     evidence := evidence link |}.

Definition push_evidence (link : CausalLink num) (e : Evidence num)
  : CausalLink num :=
  {| link_id := link_id link; cause := cause link; effect := effect link;
     mechanism := mechanism link; necessity := necessity link;
     sufficiency := sufficiency link; timeDelay := timeDelay link;
     conditions := conditions link; strength := strength link;
     evidence := (evidence link ++ [e])%list |}.

(** The link object is the one [links] holds under [linkId]; it is
    updated in place.  [Math.max(5, length)] is taken on the lengths. *)
Definition addEvidence (st : CausalReasoning num) (linkId : EntityId)
  (e : Evidence num) : CausalReasoning num :=
  match links st !! linkId with
  | None => st
  | Some link =>
      let link := push_evidence link e in
      let reliableEvidence :=
        List.filter (fun e => reliability e >? n0_7) (evidence link) in
      let evidenceStrength :=
        of_length (length reliableEvidence)
        / of_length (Nat.max 5 (length (evidence link))) in
      let link :=
        set_strength link (Math_min n1 (strength link + evidenceStrength * n0_1)) in
      set_links st (<[linkId := link]> (links st))
  end.

Definition is_id (h : option EntityId) (id : EntityId) : bool :=
  match h with
  | Some h => String.eqb h id
  | None => false
  end.

Definition updateModel (st : CausalReasoning num) (linkId : EntityId)
  (e : Evidence num) : CausalReasoning num :=
  match links st !! linkId with
  | None => st
  | Some _ =>
      let st := addEvidence st linkId e in
      match links st !! linkId with
      | None => st
      | Some link =>
          let prior := strength link in
          let likelihood := reliability e in
          if is_id (supportsHypothesis e) linkId then
            set_links st (<[linkId :=
              set_strength link (bayesianUpdate prior likelihood (n1 - likelihood))]>
              (links st))
          else if is_id (contradictsHypothesis e) linkId then
            set_links st (<[linkId :=
              set_strength link (bayesianUpdate prior (n1 - likelihood) likelihood)]>
              (links st))
          else st
      end
  end.

Definition clear (st : CausalReasoning num) : CausalReasoning num :=
  empty_engine.

(** ** Causal inference *)

(** [Array.prototype.sort(comparator)]: the sort is stable, and [a] is
    moved behind [b] exactly when [comparator(a, b) > 0].  Elements are
    inserted from left to right, each one in front of the first element
    that has to come behind it.  (For a comparator that is not a
    consistent order, as with [NaN] confidences, ECMA-262 leaves the
    result to the implementation.) *)
Fixpoint sort_insert {A} (comparator : A -> A -> num) (x : A) (sorted : list A)
  : list A :=
  match sorted with
  | [] => [x]
  | y :: rest =>
      if comparator y x >? n0 then x :: y :: rest
      else y :: sort_insert comparator x rest
  end.

Definition Array_sort {A} (comparator : A -> A -> num) (l : list A) : list A :=
  fold_left (fun sorted x => sort_insert comparator x sorted) l [].

Definition by_confidence (a b : CausalInferenceResult num) : num :=
  confidence b - confidence a.

Definition generateExplanation (path : list (CausalLink num)) : string :=
  match path with
  | [] => "No causal connection found"
  | [link] =>
      match truthy (mechanism link) with
      | Some m => cause link ++ " causes " ++ effect link ++ " through " ++ m
      | None => cause link ++ " causes " ++ effect link
      end
  | first :: _ =>
      let steps :=
        imap (fun i link =>
          let connector := match i with O => "" | _ => "which " end in
          let mech :=
            match truthy (mechanism link) with
            | Some m => " (via " ++ m ++ ")"
            | None => ""
            end in
          connector ++ "causes " ++ effect link ++ mech) path in
      cause first ++ " " ++ String.concat ", " steps
  end%string.

(** The closure [explore] of [predictEffect].  [remaining] is
    [maxSteps - depth], so [depth >= maxSteps] is [remaining = 0]; the
    pair threaded through the calls is the closure's captured state
    [(visited, results)]. *)
Fixpoint explore_effects (remaining : nat) (st : CausalReasoning num)
  (currentId : EntityId) (path : list (CausalLink num)) (conf : num)
  (acc : JSSet * list (CausalInferenceResult num))
  : JSSet * list (CausalInferenceResult num) :=
  match remaining with
  | O => acc
  | S remaining' =>
      if set_has (fst acc) currentId then acc
      else
        let acc := (set_add currentId (fst acc), snd acc) in
        let effects := getEffects st currentId in
        fold_left (fun acc link =>
          let newPath := (path ++ [link])%list in
          let newConfidence := conf * strength link in
          let results :=
            (snd acc ++
             [{| prediction := {| concept_id := effect link |};
                 confidence := newConfidence;
                 causalPath := newPath;
                 explanation := generateExplanation newPath |}])%list in
          explore_effects remaining' st (effect link) newPath newConfidence
            (fst acc, results))
          effects acc
  end.

Definition predictEffect (st : CausalReasoning num) (cause_ : EntityId)
  (maxSteps : nat) : list (CausalInferenceResult num) :=
  let results := snd (explore_effects maxSteps st cause_ [] n1 ([], [])) in
  Array_sort by_confidence results.

(** The closure [explore] of [explainEffect]. *)
Fixpoint explore_causes (remaining : nat) (st : CausalReasoning num)
  (currentId : EntityId) (path : list (CausalLink num)) (conf : num)
  (acc : JSSet * list (CausalInferenceResult num))
  : JSSet * list (CausalInferenceResult num) :=
  match remaining with
  | O => acc
  | S remaining' =>
      if set_has (fst acc) currentId then acc
      else
        let acc := (set_add currentId (fst acc), snd acc) in
        let causes := getCauses st currentId in
        fold_left (fun acc link =>
          let newPath := link :: path in
          let newConfidence := conf * necessity link in
          let results :=
            (snd acc ++
             [{| prediction := {| concept_id := cause link |};
                 confidence := newConfidence;
                 causalPath := newPath;
                 explanation := generateExplanation newPath |}])%list in
          explore_causes remaining' st (cause link) newPath newConfidence
            (fst acc, results))
          causes acc
  end.

Definition explainEffect (st : CausalReasoning num) (effect_ : EntityId)
  (maxSteps : nat) : list (CausalInferenceResult num) :=
  let results := snd (explore_causes maxSteps st effect_ [] n1 ([], [])) in
  Array_sort by_confidence results.

(** The closure [explore] of [findCausalPaths].  [remaining] is
    [maxLength - path.length], so the first test of the closure,
    [path.length >= maxLength], is [remaining = 0]; the captured state
    is [(visited, paths)]. *)
Fixpoint explore_paths (remaining : nat) (st : CausalReasoning num)
  (to currentId : EntityId) (path : list (CausalLink num))
  (acc : JSSet * list (list (CausalLink num)))
  : JSSet * list (list (CausalLink num)) :=
  match remaining with
  | O => acc
  | S remaining' =>
      if (String.eqb currentId to && (0 <? length path)%nat)%bool then
        (fst acc, (snd acc ++ [path])%list)
      else if set_has (fst acc) currentId then acc
      else
        let acc := (set_add currentId (fst acc), snd acc) in
        let effects := getEffects st currentId in
        let acc :=
          fold_left (fun acc link =>
            explore_paths remaining' st to (effect link) (path ++ [link])%list acc)
            effects acc in
        (set_delete currentId (fst acc), snd acc)
  end.

Definition findCausalPaths (st : CausalReasoning num) (from to : EntityId)
  (maxLength : nat) : list (list (CausalLink num)) :=
  snd (explore_paths maxLength st to from [] ([], [])).

(** ** Intervention *)

(** [this.linksByEffect.get(link.effect)?.delete(link.id)]. *)
Definition unindex_effect (st : CausalReasoning num) (link : CausalLink num)
  : CausalReasoning num :=
  set_linksByEffect st
    (alter (set_delete (link_id link)) (effect link) (linksByEffect st)).

(** [this.linksByEffect.get(link.effect)?.add(link.id)]. *)
Definition reindex_effect (st : CausalReasoning num) (link : CausalLink num)
  : CausalReasoning num :=
  set_linksByEffect st
    (alter (set_add (link_id link)) (effect link) (linksByEffect st)).

(** First loop of [predictIntervention]: record and cut the incoming
    links of every intervened variable.  [sever_step] is the body of the
    loop for the entry [[varId, _]]. *)
Definition sever_step {V}
  (acc : CausalReasoning num * JSMap (list (CausalLink num)))
  (entry : string * V) : CausalReasoning num * JSMap (list (CausalLink num)) :=
  let '(st, removedLinks) := acc in
  let '(varId, _) := entry in
  let causes := getCauses st varId in
  let removedLinks := map_set varId causes removedLinks in
  (fold_left unindex_effect causes st, removedLinks).

Definition sever_causes {V} (st : CausalReasoning num) (intervention : JSMap V)
  : CausalReasoning num * JSMap (list (CausalLink num)) :=
  fold_left sever_step intervention (st, []).

(** Second loop: the first prediction for [targetEffect], trying the
    intervened variables in iteration order; [predictEffect] is called
    with its default [maxSteps = 3]. *)
Fixpoint search_target {V} (st : CausalReasoning num) (intervention : JSMap V)
  (targetEffect : EntityId) : option (CausalInferenceResult num) :=
  match intervention with
  | [] => None
  | (varId, _) :: rest =>
      let predictions := predictEffect st varId 3 in
      let targetPrediction :=
        List.find (fun p => String.eqb (concept_id (prediction p)) targetEffect)
          predictions in
      match targetPrediction with
      | Some p => Some p
      | None => search_target st rest targetEffect
      end
  end.

(** Third loop: put the recorded links back. *)
Definition restore_causes (st : CausalReasoning num)
  (removedLinks : JSMap (list (CausalLink num))) : CausalReasoning num :=
  fold_left (fun st '(varId, links_) => fold_left reindex_effect links_ st)
    removedLinks st.

Definition predictIntervention {V} (st : CausalReasoning num)
  (intervention : JSMap V) (targetEffect : EntityId)
  : option (CausalInferenceResult num) * CausalReasoning num :=
  let '(st, removedLinks) := sever_causes st intervention in
  let result := search_target st intervention targetEffect in
  let st := restore_causes st removedLinks in
  (result, st).

(** [counterfactual(actual, counterfactual, targetEffect)]: the two
    outcomes and their difference, and the state the two calls leave. *)
Definition counterfactual {V} (st : CausalReasoning num)
  (actual counterfactual_ : JSMap V) (targetEffect : EntityId)
  : option (CausalInferenceResult num) * option (CausalInferenceResult num)
    * num * CausalReasoning num :=
  let '(actualOutcome, st) := predictIntervention st actual targetEffect in
  let '(counterfactualOutcome, st) :=
    predictIntervention st counterfactual_ targetEffect in
  let difference :=
    match actualOutcome, counterfactualOutcome with
    | Some a, Some c => Math_abs (confidence a - confidence c)
    | _, _ => n0
    end in
  (actualOutcome, counterfactualOutcome, difference, st).

(** ** Learning and discovery *)

Context `{!JSSqrt num}.

(** The two nested loops over the variables of one observation. *)
Definition count_observation {V} (obs : Observation V)
  (acc : JSMap num * gmap string num) : JSMap num * gmap string num :=
  let vars := map_keys (variables obs) in
  fold_left (fun '(coOccurrences, varCounts) var1 =>
    let varCounts := <[var1 := get_or (varCounts !! var1) n0 + n1]> varCounts in
    let coOccurrences :=
      fold_left (fun coOccurrences var2 =>
        if negb (String.eqb var1 var2) then
          let key := (var1 ++ "|" ++ var2)%string in
          map_set key (get_or (map_get coOccurrences key) n0 + n1) coOccurrences
        else coOccurrences)
        vars coOccurrences in
    (coOccurrences, varCounts))
    vars acc.

(** [const [var1, var2] = key.split('|')]; every key was built with the
    separator, so the split has two parts at least. *)
Definition split_pair (key : string) : string * string :=
  match split "|" key with
  | var1 :: var2 :: _ => (var1, var2)
  | _ => (key, EmptyString)
  end.

Definition computeCorrelations {V} (observations : list (Observation V))
  : JSMap num :=
  let '(coOccurrences, varCounts) :=
    fold_left (fun acc obs => count_observation obs acc) observations
      ([], ∅) in
  fold_left (fun correlations '(key, coCount) =>
    let '(var1, var2) := split_pair key in
    let count1 := get_or (varCounts !! var1) n1 in
    let count2 := get_or (varCounts !! var2) n1 in
    let correlation := coCount / Math_sqrt (count1 * count2) in
    map_set key correlation correlations)
    coOccurrences [].

Definition checkTemporalPrecedence {V} (w : World num) (var1 var2 : EntityId)
  (observations : list (Observation V)) : bool * World num :=
  let '(r, w) := Math_random w in
  (r >? n0_5, w).

(** The body of the loop of [discoverCausality] for the entry
    [[varPair, correlation]]; the state it works on is the array
    [discovered], the engine and the environment. *)
Definition discover_step {V} (observations : list (Observation V))
  (dom : string)
  (acc : list (CausalLink num) * CausalReasoning num * World num)
  (entry : string * num)
  : list (CausalLink num) * CausalReasoning num * World num :=
  let '(discovered, st, w) := acc in
  let '(varPair, correlation) := entry in
  if correlation >? n0_7 then
    let '(var1, var2) := split_pair varPair in
    let '(var1CausesVar2, w) :=
      checkTemporalPrecedence w var1 var2 observations in
    if var1CausesVar2 then
      let '(link, st, w) :=
        createLink w st var1 var2 (Some correlation)
          (Some (correlation * n0_8)) (Some (correlation * n0_6)) None None in
      let discovered := (discovered ++ [link])%list in
      let '(st, w) := addEdge w st dom link in
      (discovered, st, w)
    else (discovered, st, w)
  else (discovered, st, w).

Definition discoverCausality {V} (w : World num) (st : CausalReasoning num)
  (observations : list (Observation V)) (dom : string)
  : list (CausalLink num) * CausalReasoning num * World num :=
  let correlations := computeCorrelations observations in
  fold_left (discover_step observations dom) correlations ([], st, w).

End Engine.

(** * Specification-side definitions *)

Section Invariants.
Context {num : Type} `{JSNumber num}.

(** [id] is a member of the set the index [m] holds under [n]. *)
Definition indexed (m : gmap string (list string)) (n id : EntityId) : Prop :=
  ∃ s, m !! n = Some s ∧ id ∈ s.

(** Every set of the index is duplicate-free, as a [Set] is. *)
Definition sets_ok (m : gmap string (list string)) : Prop :=
  ∀ n s, m !! n = Some s → NoDup s.

(** The consistency of the link store: a link is filed under its own
    id and can be reached from the cause index and from the effect
    index. *)
Record store_ok (st : CausalReasoning num) : Prop := {
  ok_link_id : ∀ id l, links st !! id = Some l → link_id l = id;
  ok_by_cause : ∀ id l, links st !! id = Some l →
    indexed (linksByCause st) (cause l) id;
  ok_by_effect : ∀ id l, links st !! id = Some l →
    indexed (linksByEffect st) (effect l) id;
  ok_cause_sets : sets_ok (linksByCause st);
  ok_effect_sets : sets_ok (linksByEffect st)
}.

(** The states of the engine: what a fresh object can be brought to by
    calls of its public methods that change it, with any arguments and
    in any environment.  (The link objects the methods hand out are not
    written to from outside.) *)
Inductive reachable `{!JSSqrt num} : CausalReasoning num → Prop :=
  | reach_new : reachable empty_engine
  | reach_clear st : reachable st → reachable (clear st)
  | reach_createGraph w st dom :
      reachable st → reachable (createGraph w st dom).1.2
  | reach_getGraph w st dom :
      reachable st → reachable (getGraph w st dom).1.2
  | reach_addNode w st dom concept :
      reachable st → reachable (addNode w st dom concept).1
  | reach_addEdge w st dom link :
      reachable st → reachable (addEdge w st dom link).1
  | reach_createLink w st c e s n su m t :
      reachable st → reachable (createLink w st c e s n su m t).1.2
  | reach_addEvidence st linkId e :
      reachable st → reachable (addEvidence st linkId e)
  | reach_updateModel st linkId e :
      reachable st → reachable (updateModel st linkId e)
  | reach_predictIntervention (V : Type) st (intervention : JSMap V) target :
      is_map intervention →
      reachable st → reachable (predictIntervention st intervention target).2
  | reach_counterfactual (V : Type) st (actual cf : JSMap V) target :
      is_map actual → is_map cf →
      reachable st → reachable (counterfactual st actual cf target).2
  | reach_discoverCausality (V : Type) w st (obs : list (Observation V)) dom :
      reachable st → reachable (discoverCausality w st obs dom).1.2.

(** A link is held by the store. *)
Definition stored (st : CausalReasoning num) (l : CausalLink num) : Prop :=
  ∃ id, links st !! id = Some l.

(** The entry of the effect index a link belongs to. *)
Definition key_of (l : CausalLink num) : string * string :=
  (effect l, link_id l).

(** The index after the given links have been taken out of it, and
    after they have been put into it. *)
Definition unindex_all (D : list (CausalLink num))
  (m : gmap string (list string)) : gmap string (list string) :=
  fold_left (fun m l => alter (set_delete (link_id l)) (effect l) m) D m.

Definition reindex_all (D : list (CausalLink num))
  (m : gmap string (list string)) : gmap string (list string) :=
  fold_left (fun m l => alter (set_add (link_id l)) (effect l) m) D m.

(** The intervention as it would be without any change to the store:
    the first prediction for [targetEffect] that plain [predictEffect]
    gives for one of the keys, taken in order. *)
Definition first_plain_match (st : CausalReasoning num) (keys : list EntityId)
  (targetEffect : EntityId) : option (CausalInferenceResult num) :=
  head (omap (fun key =>
    List.find (fun p => String.eqb (concept_id (prediction p)) targetEffect)
      (predictEffect st key 3)) keys).

(** [path] follows the cause index from [start]: its first link is one
    of the links [getEffects] gives for [start], the next one is one of
    those it gives for the effect of the first, and so on. *)
Fixpoint follows (st : CausalReasoning num) (start : EntityId)
  (path : list (CausalLink num)) : Prop :=
  match path with
  | [] => True
  | link :: rest => link ∈ getEffects st start ∧ follows st (effect link) rest
  end.

(** The node a path from [start] ends in. *)
Definition path_end (start : EntityId) (path : list (CausalLink num))
  : EntityId :=
  match last path with
  | Some link => effect link
  | None => start
  end.

(** The product of the strengths along a path, multiplied in the order
    of the path, starting from [conf]. *)
Definition strength_product (conf : num) (path : list (CausalLink num)) : num :=
  fold_left (fun c link => (c * strength link)%num) path conf.

(** [path] traces the effect index back from [target]: its last link is
    one of the links [getCauses] gives for [target], the link before it
    is one of those it gives for the cause of the last, and so on. *)
Fixpoint traces (st : CausalReasoning num) (path : list (CausalLink num))
  (target : EntityId) : Prop :=
  match path with
  | [] => True
  | link :: rest =>
      link ∈ getCauses st (match rest with [] => target | next :: _ => cause next end)
      ∧ traces st rest target
  end.

(** The node a path to [target] starts from. *)
Definition path_start (path : list (CausalLink num)) (target : EntityId)
  : EntityId :=
  match path with
  | link :: _ => cause link
  | [] => target
  end.

(** The product of the necessities along a path, multiplied from the
    last link back to the first, starting from [conf]. *)
Definition necessity_product (conf : num) (path : list (CausalLink num)) : num :=
  fold_right (fun link c => (c * necessity link)%num) conf path.

(** What [predictEffect st origin maxSteps] promises of a result. *)
Definition prediction_ok (st : CausalReasoning num) (origin : EntityId)
  (maxSteps : nat) (r : CausalInferenceResult num) : Prop :=
  (1 ≤ length (causalPath r) ≤ maxSteps)%nat
  ∧ follows st origin (causalPath r)
  ∧ concept_id (prediction r) = path_end origin (causalPath r)
  ∧ confidence r = strength_product n1 (causalPath r).

(** What [explainEffect st target maxSteps] promises of a result. *)
Definition explanation_ok (st : CausalReasoning num) (target : EntityId)
  (maxSteps : nat) (r : CausalInferenceResult num) : Prop :=
  (1 ≤ length (causalPath r) ≤ maxSteps)%nat
  ∧ traces st (causalPath r) target
  ∧ concept_id (prediction r) = path_start (causalPath r) target
  ∧ confidence r = necessity_product n1 (causalPath r).

End Invariants.

(** * Test bench *)

Section Bench.
Context {num : Type} `{JSNumber num}.

(** An environment: the clock advances by one millisecond per reading,
    [Math.random()] returns [draw i] at its [i]-th call, and a fraction
    is printed in radix 36 as that of one half is. *)
Definition bench_world (draw : nat → num) : World num :=
  {| dateNow := fun i => (1700000000000 + Z.of_nat i)%Z;
     mathRandom := draw;
     fraction36 := fun _ => "0.i";
     clockReads := 0;
     randomReads := 0 |}.

(** Three calls of [createLink] on a fresh engine, one after the other:
    each is given the store and the environment the call before it
    left. *)
Definition chain_AB (s1 nec1 : num)
  : CausalLink num * CausalReasoning num * World num :=
  createLink (bench_world (fun _ => n0_5)) empty_engine "A" "B"
    (Some s1) (Some nec1) None None None.

Definition chain_BC (s1 s2 nec1 nec2 : num)
  : CausalLink num * CausalReasoning num * World num :=
  createLink (chain_AB s1 nec1).2 (chain_AB s1 nec1).1.2 "B" "C"
    (Some s2) (Some nec2) None None None.

Definition chain_CD (s1 s2 s3 nec1 nec2 nec3 : num)
  : CausalLink num * CausalReasoning num * World num :=
  createLink (chain_BC s1 s2 nec1 nec2).2 (chain_BC s1 s2 nec1 nec2).1.2
    "C" "D" (Some s3) (Some nec3) None None None.

(** The store they leave: exactly the chain A→B→C→D, with the given
    strengths and necessities. *)
Definition chain (s1 s2 s3 nec1 nec2 nec3 : num) : CausalReasoning num :=
  (chain_CD s1 s2 s3 nec1 nec2 nec3).1.2.

(** A fresh engine after one call of [createLink] with the given
    strength, and the link that call returned. *)
Definition one_link (s : num) : CausalLink num * CausalReasoning num :=
  (createLink (bench_world (fun _ => n0_5)) empty_engine "A" "B"
     (Some s) None None None None).1.

(** The strength [addEvidence] computes: the code's
    [Math.min(1, strength + evidenceStrength * 0.1)] with
    [evidenceStrength = reliable.length / Math.max(5, evidence.length)],
    for the old strength and the evidence list after the append. *)
Definition reinforced (old : num) (evs : list (Evidence num)) : num :=
  let r := length (List.filter (fun e => ngt (reliability e) n0_7) evs) in
  let n := length evs in
  Math_min n1 (old + of_length r / of_length (Nat.max 5 n) * n0_1)%num.

(** The posterior the belief updater aims at when the evidence supports
    the link, and when it contradicts it, for the likelihood [L] and the
    prior [p]. *)
Definition posterior_support (L p : num) : num :=
  (L * p / (L * p + (n1 - L) * (n1 - p)))%num.

Definition posterior_contradict (L p : num) : num :=
  ((n1 - L) * p / ((n1 - L) * p + L * (n1 - p)))%num.

(** An evidence record with the given reliability and hypothesis
    references. *)
Definition evidence_of (rel : num) (supports contradicts : option EntityId)
  : Evidence num :=
  {| ev_id := "evidence:1"; ev_type := observation; ev_source := "bench";
     reliability := rel; timestamp := 1700000000000%Z;
     supportsHypothesis := supports; contradictsHypothesis := contradicts |}.

(** A store that no sequence of calls produces: the link [L] has the
    effect [Y] but is filed under [X] in the effect index (as happens
    when a caller overwrites the [effect] of a link object it holds). *)
Definition misfiled_store : CausalReasoning num :=
  {| graphs := ∅;
     links :=
       {[ "L" := {| link_id := "L"; cause := "A"; effect := "Y";
                    mechanism := None; necessity := n0_5;
                    sufficiency := n0_5; timeDelay := n0; conditions := [];
                    strength := n0_5; evidence := [] |} ]};
     linksByCause := {[ "A" := ["L"] ]};
     linksByEffect := <["X" := ["L"]]> {[ "Y" := [] ]} |}.

(** One observation in which the variables [a] and [b] occur together. *)
Definition one_observation : list (Observation bool) :=
  [ {| variables := [("a", true); ("b", true)]; outcome := "o" |} ].

(** What the claim on determinism compares of a discovered link. *)
Definition link_tuple (l : CausalLink num)
  : string * string * num * num * num :=
  (cause l, effect l, strength l, necessity l, sufficiency l).

End Bench.

(** * More of the engine and of [foundation/utils.ts] *)

(** The further operations on numbers these functions use:
    [Math.max(a, b)], [isNaN(a)] and the comparison [a >= b], and the
    literals [0.3] and [0.01]. *)
Class JSMath (num : Type) := {
  Math_max : num -> num -> num;
  isNaN : num -> bool;
  nge : num -> num -> bool;
  n0_3 : num;
  n0_01 : num
}.

(** [Math.max]: [NaN] if an argument is; of two zeros the positive one. *)
Definition float_max (a b : float) : float :=
  if (PrimFloat.is_nan a || PrimFloat.is_nan b)%bool then PrimFloat.nan
  else if PrimFloat.ltb a b then b
  else if PrimFloat.ltb b a then a
  else if PrimFloat.get_sign a then b else a.

#[export] Instance float_math : JSMath float := {|
  Math_max := float_max;
  isNaN := PrimFloat.is_nan;
  nge := fun a b => PrimFloat.leb b a;
  n0_3 := 0.3%float;
  n0_01 := 0.01%float
|}.

Definition Q_max (a b : Q) : Q := if Qgt_bool b a then b else a.

#[export] Instance Q_math : JSMath Q := {|
  Math_max := Q_max;
  isNaN := fun _ => false;
  nge := fun a b => Qle_bool b a;
  n0_3 := (3 # 10)%Q;
  n0_01 := (1 # 100)%Q
|}.

(** What [getStats()] reports of one graph, and of the engine; the
    object [graphs] of the report is keyed by domain. *)
Record GraphStats (num : Type) := {
  nodeCount : nat;
  edgeCount : nat;
  stats_confidence : num
}.
Arguments nodeCount {num}.
Arguments edgeCount {num}.
Arguments stats_confidence {num}.

Record EngineStats (num : Type) := {
  graphCount : nat;
  linkCount : nat;
  stats_graphs : gmap string (GraphStats num)
}.
Arguments graphCount {num}.
Arguments linkCount {num}.
Arguments stats_graphs {num}.

(** What [conceptSimilarity] reads of a concept: its [type], a string
    of the enumeration, and the keys of its [properties]. *)
Record ConceptView := {
  concept_type : string;
  property_keys : list string
}.

(** What [updateSalience] reads and writes of a context; the other
    fields are copied as they are. *)
Record Context (num : Type) := {
  activeConcepts : JSSet;
  salience : JSMap num
}.
Arguments activeConcepts {num}.
Arguments salience {num}.

(** [new Set(array)]. *)
Definition Set_of (l : list string) : JSSet :=
  fold_left (fun u x => set_add x u) l [].

(** [Map.prototype.delete]. *)
Definition map_delete {V} (k : string) (m : JSMap V) : JSMap V :=
  List.filter (fun entry => negb (String.eqb k (fst entry))) m.

(** A call either returns or throws an [Error]; the text of the
    message is not modelled. *)
Inductive Completion := Returns | Throws.

(** [getIdPrefix(id)]. *)
Definition getIdPrefix (id : EntityId) : option string :=
  let parts := split ":" id in
  if (1 <? length parts)%nat then head parts else None.

Section Utils.
Context {num : Type} `{JSNumber num} `{JSMath num}.
Local Open Scope num_scope.

Definition getStats (st : CausalReasoning num) : EngineStats num :=
  {| graphCount := size (graphs st);
     linkCount := size (links st);
     stats_graphs :=
       (fun graph =>
          {| nodeCount := length (nodes graph);
             edgeCount := length (edges graph);
             stats_confidence := graph_confidence graph |}) <$> graphs st |}.

(** [validateProbability(value, name)]. *)
Definition validateProbability (value : num) (name : string) : Completion :=
  if (ngt n0 value || ngt value n1 || isNaN value)%bool then Throws
  else Returns.

Definition clamp01 (value : num) : num :=
  Math_max n0 (Math_min n1 value).

Definition combineConfidence (confidences : list num) : num :=
  match confidences with
  | [] => n0
  | [c] => c
  | _ =>
      let complement :=
        fold_left (fun acc c => acc * (n1 - c)) confidences n1 in
      n1 - complement
  end.

(** [jaccardSimilarity(set1, set2)] on sets of strings. *)
Definition jaccardSimilarity (set1 set2 : JSSet) : num :=
  let intersection := List.filter (set_has set2) set1 in
  let union := fold_left (fun u x => set_add x u) (set1 ++ set2)%list [] in
  if (0 <? length union)%nat
  then of_length (length intersection) / of_length (length union)
  else n0.

(** [conceptSimilarity(c1, c2)]. *)
Definition conceptSimilarity (c1 c2 : ConceptView) : num :=
  let typeMatch :=
    if String.eqb (concept_type c1) (concept_type c2) then n0_3 else n0 in
  let keys1 := Set_of (property_keys c1) in
  let keys2 := Set_of (property_keys c2) in
  let intersection := Set_of (List.filter (set_has keys2) keys1) in
  let union := Set_of (keys1 ++ keys2)%list in
  let propertyOverlap :=
    of_length (length intersection) / of_length (length union) * n0_7 in
  Math_min n1 (typeMatch + propertyOverlap).

(** The body of the loop of [updateSalience] for the entry
    [[id, delta]]; the state it works on is the new salience map and
    the set [context.activeConcepts]. *)
Definition salience_step (acc : JSMap num * JSSet) (entry : string * num)
  : JSMap num * JSSet :=
  let '(newSalience, active) := acc in
  let '(id, delta) := entry in
  let current := get_or (map_get newSalience id) n0 in
  let updated := Math_max n0 (Math_min n1 (current + delta)) in
  if updated >? n0_01
  then (map_set id updated newSalience, set_add id active)
  else (map_delete id newSalience, set_delete id active).

(** [updateSalience(context, updates)]: the context returned, and the
    argument after the call.  The salience map is copied before it is
    written to; the set [activeConcepts] is not, so the two contexts
    share it. *)
Definition updateSalience (context : Context num) (updates : JSMap num)
  : Context num * Context num :=
  let '(newSalience, active) :=
    fold_left salience_step updates
      (salience context, activeConcepts context) in
  ({| activeConcepts := active; salience := newSalience |},
   {| activeConcepts := active; salience := salience context |}).

(** [groupBy(items, keyFn)] for string keys.  The group found under a
    key is the array the map holds, so pushing to it and setting it
    again leaves the entry where it is. *)
Definition groupBy {T} (items : list T) (keyFn : T -> string) : JSMap (list T) :=
  fold_left (fun groups item =>
    let key := keyFn item in
    let group := default [] (map_get groups key) in
    map_set key (group ++ [item])%list groups)
    items [].

(** [topN(items, scoreFn, n)]. *)
Definition topN {T} (items : list T) (scoreFn : T -> num) (n : nat) : list T :=
  List.map fst
    (firstn n
       (Array_sort (fun a b => snd b - snd a)
          (List.map (fun item => (item, scoreFn item)) items))).

End Utils.

Section Tightness.
Context {num : Type} `{JSNumber num}.





(** What [discoverCausality] gives the links it creates. *)
Definition discovered_ok (l : CausalLink num) : Prop :=
  ngt (strength l) n0_7 = true
  ∧ necessity l = (strength l * n0_8)%num
  ∧ sufficiency l = (strength l * n0_6)%num
  ∧ evidence l = [] ∧ mechanism l = None ∧ timeDelay l = n0.

End Tightness.

(** The order the comparator [(a, b) => key(b) - key(a)] sorts by. *)
Definition descending {A : Type} (key : A -> Q) (a b : A) : Prop :=
  (key b <= key a)%Q.

(** * Properties *)

Local Open Scope list_scope.

(** ** Sets and iterated maps *)

Lemma set_has_true s x : set_has s x = true ↔ x ∈ s.
Proof.
  unfold set_has. rewrite existsb_exists, list_elem_of_In. split.
  - intros (y & Hy & Heq). apply String.eqb_eq in Heq. by subst.
  - intros Hx. exists x. split; [done | apply String.eqb_refl].
Qed.

Lemma set_has_false s x : set_has s x = false ↔ x ∉ s.
Proof.
  rewrite <- set_has_true. by destruct (set_has s x).
Qed.

Lemma elem_of_set_add x y s : y ∈ set_add x s ↔ y ∈ s ∨ y = x.
Proof.
  unfold set_add. destruct (set_has s x) eqn:Hx.
  - apply set_has_true in Hx. split; [by left | by intros [? | ->]].
  - rewrite elem_of_app, list_elem_of_singleton. tauto.
Qed.

Lemma elem_of_set_delete x y s : y ∈ set_delete x s ↔ y ∈ s ∧ y ≠ x.
Proof.
  unfold set_delete. rewrite !list_elem_of_In, filter_In.
  rewrite negb_true_iff, String.eqb_neq. split; intros [? ?]; split; auto.
Qed.

Lemma NoDup_set_add x s : NoDup s → NoDup (set_add x s).
Proof.
  intros Hs. unfold set_add. destruct (set_has s x) eqn:Hx; [done |].
  apply set_has_false in Hx. apply NoDup_app. split; [done |]. split.
  - intros y Hy ->%list_elem_of_singleton. by apply Hx.
  - apply NoDup_singleton.
Qed.

Lemma NoDup_set_delete x s : NoDup s → NoDup (set_delete x s).
Proof.
  induction 1 as [| y s Hy Hs IH]; simpl; [constructor |].
  destruct (negb (x =? y)%string) eqn:E; [| done].
  apply NoDup_cons. split; [| done].
  intros Hin. apply Hy. fold (set_delete x s) in Hin.
  by apply elem_of_set_delete in Hin as [? _].
Qed.

Lemma map_keys_map_set_fresh {V} (k : string) (v : V) (m : JSMap V) :
  k ∉ map_keys m → map_set k v m = m ++ [(k, v)].
Proof.
  induction m as [| [k' v'] m IH]; simpl; [done |].
  intros Hk. apply not_elem_of_cons in Hk as [Hne Hk].
  destruct (String.eqb_spec k k') as [-> | _]; [done |].
  by rewrite IH.
Qed.

Lemma fold_left_congr {A B} (f g : A → B → A) l a :
  (∀ a b, f a b = g a b) → fold_left f l a = fold_left g l a.
Proof.
  intros Hfg. revert a. induction l as [| b l IH]; intros a; simpl; [done |].
  by rewrite Hfg, IH.
Qed.

(** ** Sorting *)

Section Sorting.
Context {num : Type} `{JSNumber num} {A : Type} (comparator : A → A → num).

Lemma sort_insert_perm (x : A) sorted :
  sort_insert comparator x sorted ≡ₚ x :: sorted.
Proof.
  induction sorted as [| y rest IH]; simpl; [done |].
  destruct (ngt _ _); [done |].
  rewrite IH. apply Permutation_swap.
Qed.

Lemma Array_sort_perm (l : list A) : Array_sort comparator l ≡ₚ l.
Proof.
  unfold Array_sort.
  assert (Hgen : ∀ acc, fold_left
    (fun sorted x => sort_insert comparator x sorted) l acc ≡ₚ acc ++ l).
  { induction l as [| x l IH]; intros acc; simpl.
    - by rewrite app_nil_r.
    - rewrite IH, sort_insert_perm.
      by rewrite (Permutation_middle acc l x). }
  by rewrite Hgen.
Qed.

Lemma elem_of_Array_sort (l : list A) x : x ∈ Array_sort comparator l ↔ x ∈ l.
Proof. by rewrite Array_sort_perm. Qed.

End Sorting.

(** ** What the traversals read *)

Section Frames.
Context {num : Type} `{JSNumber num}.
Implicit Types st : CausalReasoning num.

(** [getEffects] reads [links] and the cause index only. *)
Lemma getEffects_frame st1 st2 c :
  links st1 = links st2 → linksByCause st1 = linksByCause st2 →
  getEffects st1 c = getEffects st2 c.
Proof. unfold getEffects. by intros -> ->. Qed.

Lemma explore_effects_frame st1 st2 :
  (∀ c, getEffects st1 c = getEffects st2 c) →
  ∀ remaining c path conf acc,
    explore_effects remaining st1 c path conf acc
    = explore_effects remaining st2 c path conf acc.
Proof.
  intros Hget. induction remaining as [| r IH]; intros c path conf acc;
    simpl; [done |].
  destruct (set_has acc.1 c); [done |].
  rewrite Hget. apply fold_left_congr. intros a link. apply IH.
Qed.

Lemma predictEffect_frame st1 st2 c maxSteps :
  links st1 = links st2 → linksByCause st1 = linksByCause st2 →
  predictEffect st1 c maxSteps = predictEffect st2 c maxSteps.
Proof.
  intros Hl Hc. unfold predictEffect.
  rewrite (explore_effects_frame st1 st2); [done |].
  intros c'. by apply getEffects_frame.
Qed.

Lemma search_target_frame {V} st1 st2 (intervention : JSMap V) target :
  links st1 = links st2 → linksByCause st1 = linksByCause st2 →
  search_target st1 intervention target = search_target st2 intervention target.
Proof.
  intros Hl Hc. induction intervention as [| [varId v] rest IH]; simpl; [done |].
  by rewrite (predictEffect_frame st1 st2), IH.
Qed.

Lemma search_target_keys {V} st (intervention : JSMap V) target :
  search_target st intervention target
  = first_plain_match st (map_keys intervention) target.
Proof.
  unfold first_plain_match.
  induction intervention as [| [varId v] rest IH]; simpl; [done |].
  destruct (List.find _ _); [done |]. apply IH.
Qed.

(** Cutting links out of the effect index leaves everything else as it
    was. *)
Lemma unindex_fold st (D : list (CausalLink num)) :
  fold_left unindex_effect D st
  = set_linksByEffect st (unindex_all D (linksByEffect st)).
Proof.
  unfold unindex_all. revert st.
  induction D as [| l D IH]; intros st; simpl; [by destruct st |].
  by rewrite IH.
Qed.

Lemma reindex_fold st (D : list (CausalLink num)) :
  fold_left reindex_effect D st
  = set_linksByEffect st (reindex_all D (linksByEffect st)).
Proof.
  unfold reindex_all. revert st.
  induction D as [| l D IH]; intros st; simpl; [by destruct st |].
  by rewrite IH.
Qed.

Lemma unindex_all_app (D1 D2 : list (CausalLink num)) m :
  unindex_all (D1 ++ D2) m = unindex_all D2 (unindex_all D1 m).
Proof. unfold unindex_all. by rewrite fold_left_app. Qed.

Lemma reindex_all_app (D1 D2 : list (CausalLink num)) m :
  reindex_all (D1 ++ D2) m = reindex_all D2 (reindex_all D1 m).
Proof. unfold reindex_all. by rewrite fold_left_app. Qed.

Lemma getCauses_stored st v : Forall (stored st) (getCauses st v).
Proof.
  apply Forall_forall. intros l Hl. unfold getCauses in Hl.
  apply list_elem_of_omap in Hl as (id & _ & Hid). by exists id.
Qed.

(** The first loop of [predictIntervention], started from any
    intermediate state: only the effect index changes; what is taken out
    of it are links of the store; and, the keys being distinct, every
    list of links taken out is on record. *)
Lemma sever_causes_fold {V} (intervention : JSMap V) :
  ∀ st0 removed0,
    NoDup (map_keys removed0 ++ map_keys intervention) →
    ∃ D st1 removed,
      fold_left sever_step intervention (st0, removed0) = (st1, removed)
      ∧ st1 = set_linksByEffect st0 (unindex_all D (linksByEffect st0))
      ∧ Forall (stored st0) D
      ∧ concat removed.*2 = concat removed0.*2 ++ D.
Proof.
  induction intervention as [| [varId v] rest IH]; intros st0 removed0 Hnd.
  - exists [], st0, removed0. simpl. rewrite app_nil_r. by destruct st0.
  - simpl in *.
    assert (Hfresh : varId ∉ map_keys removed0).
    { intros Hin. apply NoDup_app in Hnd as (_ & Hdisj & _).
      apply (Hdisj _ Hin). by left. }
    rewrite map_keys_map_set_fresh by done.
    rewrite unindex_fold.
    set (causes := getCauses st0 varId).
    set (st' := set_linksByEffect st0 _).
    destruct (IH st' (removed0 ++ [(varId, causes)])) as
      (D & st1 & removed & Hfold & Hst1 & Hall & Hcat).
    { unfold map_keys in *. rewrite map_app. simpl.
      rewrite <- app_assoc. simpl. done. }
    exists (causes ++ D), st1, removed. split; [done |]. split; [| split].
    + rewrite Hst1. subst st'. simpl. by rewrite unindex_all_app.
    + apply Forall_app. split; [apply getCauses_stored |].
      eapply Forall_impl; [exact Hall |]. intros l [id Hid]. by exists id.
    + rewrite Hcat. rewrite fmap_app, concat_app. simpl.
      by rewrite app_nil_r, <- app_assoc.
Qed.

Lemma sever_causes_spec {V} st (intervention : JSMap V) :
  is_map intervention →
  ∃ D, (sever_causes st intervention).1
       = set_linksByEffect st (unindex_all D (linksByEffect st))
     ∧ Forall (stored st) D
     ∧ concat (sever_causes st intervention).2.*2 = D.
Proof.
  intros Hmap. unfold sever_causes.
  destruct (sever_causes_fold intervention st []) as
    (D & st1 & removed & -> & Hst1 & Hall & Hcat); [done |].
  by exists D.
Qed.

(** The same loop without the assumption on the keys: the store and
    the cause index are never written. *)
Lemma sever_causes_frame {V} st (intervention : JSMap V) :
  links (sever_causes st intervention).1 = links st
  ∧ linksByCause (sever_causes st intervention).1 = linksByCause st
  ∧ graphs (sever_causes st intervention).1 = graphs st.
Proof.
  unfold sever_causes. generalize (@nil (string * list (CausalLink num))).
  revert st. induction intervention as [| [varId v] rest IH];
    intros st removed; simpl; [done |].
  rewrite unindex_fold.
  destruct (IH (set_linksByEffect st
    (unindex_all (getCauses st varId) (linksByEffect st)))
    (map_set varId (getCauses st varId) removed)) as (-> & -> & ->).
  done.
Qed.

Lemma restore_causes_spec st (removed : JSMap (list (CausalLink num))) :
  restore_causes st removed
  = set_linksByEffect st (reindex_all (concat removed.*2) (linksByEffect st)).
Proof.
  unfold restore_causes. revert st.
  induction removed as [| [varId ls] removed IH]; intros st; simpl.
  - by destruct st.
  - rewrite reindex_fold, IH. simpl. by rewrite reindex_all_app.
Qed.

End Frames.

(** ** The effect index under cutting and restoring *)

Section Index.
Context {num : Type} `{JSNumber num}.
Implicit Types (st : CausalReasoning num) (m : gmap string (list string)).

Lemma indexed_delete m e i n id :
  indexed (alter (set_delete i) e m) n id ↔ indexed m n id ∧ (n, id) ≠ (e, i).
Proof.
  unfold indexed. destruct (decide (e = n)) as [-> | Hne].
  - rewrite lookup_alter_eq. split.
    + intros (s & Hs & Hin). destruct (m !! n) as [s0 |]; [| done].
      simpl in Hs. injection Hs as <-.
      apply elem_of_set_delete in Hin as [Hin Hid].
      split; [by exists s0 | congruence].
    + intros [(s & Hs & Hin) Hk]. rewrite Hs. simpl.
      eexists. split; [done |]. apply elem_of_set_delete.
      split; [done | congruence].
  - rewrite lookup_alter_ne by done. split.
    + intros Hi. split; [done | congruence].
    + by intros [Hi _].
Qed.

Lemma indexed_add m e i n id :
  indexed (alter (set_add i) e m) n id
  ↔ indexed m n id ∨ (is_Some (m !! n) ∧ (n, id) = (e, i)).
Proof.
  unfold indexed. destruct (decide (e = n)) as [-> | Hne].
  - rewrite lookup_alter_eq. split.
    + intros (s & Hs & Hin). destruct (m !! n) as [s0 |]; [| done].
      simpl in Hs. injection Hs as <-.
      apply elem_of_set_add in Hin as [Hin | ->]; [left; by exists s0 |].
      right. by split.
    + intros [(s & Hs & Hin) | [[s Hs] Hk]]; rewrite Hs; simpl;
        (eexists; split; [done |]); apply elem_of_set_add; [by left |].
      right. congruence.
  - rewrite lookup_alter_ne by done. split; [by left |].
    intros [Hi | [_ Hk]]; [done | congruence].
Qed.

Lemma is_Some_alter (f : list string → list string) m e n :
  is_Some (alter f e m !! n) ↔ is_Some (m !! n).
Proof.
  destruct (decide (e = n)) as [-> | Hne].
  - rewrite lookup_alter_eq. by rewrite fmap_is_Some.
  - by rewrite lookup_alter_ne.
Qed.

Lemma sets_ok_alter (f : list string → list string) m e :
  (∀ s, NoDup s → NoDup (f s)) → sets_ok m → sets_ok (alter f e m).
Proof.
  intros Hf Hm n s. destruct (decide (e = n)) as [-> | Hne].
  - rewrite lookup_alter_eq. destruct (m !! n) as [s0 |] eqn:E; [| done].
    simpl. intros [= <-]. eauto.
  - rewrite lookup_alter_ne by done. apply Hm.
Qed.

Lemma indexed_unindex_all (D : list (CausalLink num)) m n id :
  indexed (unindex_all D m) n id ↔ indexed m n id ∧ (n, id) ∉ key_of <$> D.
Proof.
  unfold unindex_all. revert m.
  induction D as [| l D IH]; intros m; simpl.
  - split; [intros Hi; split; [done | apply not_elem_of_nil] | by intros []].
  - rewrite IH, indexed_delete, not_elem_of_cons. unfold key_of at 2. tauto.
Qed.

Lemma indexed_reindex_all (D : list (CausalLink num)) m n id :
  indexed (reindex_all D m) n id
  ↔ indexed m n id ∨ (is_Some (m !! n) ∧ (n, id) ∈ key_of <$> D).
Proof.
  unfold reindex_all. revert m.
  induction D as [| l D IH]; intros m; simpl.
  - split; [by left |]. intros [Hi | [_ Hin]]; [done |].
    by apply elem_of_nil in Hin.
  - rewrite IH, indexed_add, is_Some_alter, elem_of_cons.
    unfold key_of at 2. tauto.
Qed.

Lemma is_Some_unindex_all (D : list (CausalLink num)) m n :
  is_Some (unindex_all D m !! n) ↔ is_Some (m !! n).
Proof.
  unfold unindex_all. revert m. induction D as [| l D IH]; intros m; simpl;
    [done |]. by rewrite IH, is_Some_alter.
Qed.


Lemma sets_ok_unindex_all (D : list (CausalLink num)) m :
  sets_ok m → sets_ok (unindex_all D m).
Proof.
  unfold unindex_all. revert m. induction D as [| l D IH]; intros m Hm; simpl;
    [done |]. apply IH, sets_ok_alter; [apply NoDup_set_delete | done].
Qed.

Lemma sets_ok_reindex_all (D : list (CausalLink num)) m :
  sets_ok m → sets_ok (reindex_all D m).
Proof.
  unfold reindex_all. revert m. induction D as [| l D IH]; intros m Hm; simpl;
    [done |]. apply IH, sets_ok_alter; [apply NoDup_set_add | done].
Qed.

Lemma indexed_is_Some m n id : indexed m n id → is_Some (m !! n).
Proof. intros (s & Hs & _). by exists s. Qed.

(** Taking links of a consistent store out of the effect index and
    putting the same links back gives an index with the members it had. *)
Lemma indexed_restore st (D : list (CausalLink num)) n id :
  store_ok st → Forall (stored st) D →
  indexed (reindex_all D (unindex_all D (linksByEffect st))) n id
  ↔ indexed (linksByEffect st) n id.
Proof.
  intros Hok HD.
  rewrite indexed_reindex_all, indexed_unindex_all, is_Some_unindex_all.
  assert (Hmem : (n, id) ∈ key_of <$> D → indexed (linksByEffect st) n id).
  { intros (l & Hk & Hl)%list_elem_of_fmap.
    rewrite Forall_forall in HD. destruct (HD l Hl) as [id' Hid'].
    unfold key_of in Hk. injection Hk as -> ->.
    rewrite (ok_link_id st Hok _ _ Hid'). by apply (ok_by_effect st Hok). }
  split.
  - intros [[Hi _] | [_ Hin]]; auto.
  - intros Hi. destruct (decide ((n, id) ∈ key_of <$> D)) as [Hin | Hnin].
    + right. split; [by eapply indexed_is_Some | done].
    + left. by split.
Qed.


End Index.

(** ** The store invariant *)

Section StoreInvariant.
Context {num : Type} `{JSNumber num}.
Implicit Types (st : CausalReasoning num) (m : gmap string (list string)).

Lemma store_ok_frame st1 st2 :
  links st1 = links st2 → linksByCause st1 = linksByCause st2 →
  linksByEffect st1 = linksByEffect st2 → store_ok st1 → store_ok st2.
Proof.
  intros Hl Hc He [H1 H2 H3 H4 H5].
  constructor; rewrite <- ?Hl, <- ?Hc, <- ?He; done.
Qed.

Lemma store_ok_empty : store_ok (@empty_engine num).
Proof.
  constructor; simpl; try (intros ? ? Hl; by rewrite lookup_empty in Hl).
Qed.

Lemma indexed_index_add m k i n id :
  indexed (index_add m k i) n id ↔ indexed m n id ∨ (n = k ∧ id = i).
Proof.
  unfold indexed, index_add. destruct (decide (k = n)) as [-> | Hne].
  - rewrite lookup_insert_eq. split.
    + intros (s & [= <-] & [Hin | ->]%elem_of_set_add); [| by right].
      left. destruct (m !! n) as [s0 |]; [by exists s0 |].
      by apply elem_of_nil in Hin.
    + intros [(s & Hs & Hin) | [_ ->]]; (eexists; split; [done |]);
        apply elem_of_set_add; [| by right].
      left. by rewrite Hs.
  - rewrite lookup_insert_ne by done. split; [by left |].
    intros [Hi | [-> _]]; done.
Qed.

Lemma sets_ok_index_add m k i : sets_ok m → sets_ok (index_add m k i).
Proof.
  intros Hm n s. unfold index_add. destruct (decide (k = n)) as [-> | Hne].
  - rewrite lookup_insert_eq. intros [= <-]. apply NoDup_set_add.
    destruct (m !! n) as [s0 |] eqn:E; simpl; [by eapply Hm | constructor].
  - rewrite lookup_insert_ne by done. apply Hm.
Qed.

Lemma store_ok_storeLink st link : store_ok st → store_ok (storeLink st link).
Proof.
  intros [H1 H2 H3 H4 H5]. constructor; simpl.
  - intros id l. destruct (decide (link_id link = id)) as [<- | Hne].
    + rewrite lookup_insert_eq. by intros [= <-].
    + rewrite lookup_insert_ne by done. apply H1.
  - intros id l. rewrite indexed_index_add.
    destruct (decide (link_id link = id)) as [<- | Hne].
    + rewrite lookup_insert_eq. intros [= <-]. by right.
    + rewrite lookup_insert_ne by done. intros Hl. left. by apply H2.
  - intros id l. rewrite indexed_index_add.
    destruct (decide (link_id link = id)) as [<- | Hne].
    + rewrite lookup_insert_eq. intros [= <-]. by right.
    + rewrite lookup_insert_ne by done. intros Hl. left. by apply H3.
  - by apply sets_ok_index_add.
  - by apply sets_ok_index_add.
Qed.

(** Rewriting a stored link without touching its id and end points. *)
Lemma store_ok_update st linkId (l l' : CausalLink num) :
  links st !! linkId = Some l →
  link_id l' = link_id l → cause l' = cause l → effect l' = effect l →
  store_ok st → store_ok (set_links st (<[linkId := l']> (links st))).
Proof.
  intros Hl Hid Hc He [H1 H2 H3 H4 H5]. constructor; simpl; try done.
  - intros id l0. destruct (decide (linkId = id)) as [<- | Hne].
    + rewrite lookup_insert_eq. intros [= <-]. rewrite Hid. by apply H1.
    + rewrite lookup_insert_ne by done. apply H1.
  - intros id l0. destruct (decide (linkId = id)) as [<- | Hne].
    + rewrite lookup_insert_eq. intros [= <-]. rewrite Hc. by apply H2.
    + rewrite lookup_insert_ne by done. apply H2.
  - intros id l0. destruct (decide (linkId = id)) as [<- | Hne].
    + rewrite lookup_insert_eq. intros [= <-]. rewrite He. by apply H3.
    + rewrite lookup_insert_ne by done. apply H3.
Qed.

Lemma store_ok_addEvidence st linkId e :
  store_ok st → store_ok (addEvidence st linkId e).
Proof.
  intros Hok. unfold addEvidence.
  destruct (links st !! linkId) as [l |] eqn:Hl; [| done].
  by eapply store_ok_update.
Qed.

Lemma store_ok_updateModel st linkId e :
  store_ok st → store_ok (updateModel st linkId e).
Proof.
  intros Hok. unfold updateModel.
  destruct (links st !! linkId) as [l0 |]; [| done].
  pose proof (store_ok_addEvidence st linkId e Hok) as Hok'.
  destruct (links (addEvidence st linkId e) !! linkId) as [l |] eqn:Hl;
    [| done].
  destruct (is_id _ _); [by eapply store_ok_update |].
  destruct (is_id _ _); [by eapply store_ok_update | done].
Qed.

Lemma store_ok_createGraph w st dom :
  store_ok st → store_ok (createGraph w st dom).1.2.
Proof.
  unfold createGraph. destruct (generateId _ _) as [gid w1].
  destruct (now w1) as [t1 w2]. destruct (now w2) as [t2 w3]. simpl.
  by apply store_ok_frame.
Qed.

Lemma store_ok_getGraph w st dom :
  store_ok st → store_ok (getGraph w st dom).1.2.
Proof.
  unfold getGraph. destruct (graphs st !! dom); [done |].
  apply store_ok_createGraph.
Qed.

Lemma store_ok_addNode w st dom concept :
  store_ok st → store_ok (addNode w st dom concept).1.
Proof.
  intros Hok. unfold addNode.
  pose proof (store_ok_getGraph w st dom Hok) as Hg.
  destruct (getGraph w st dom) as [[g st1] w1]. destruct (now w1) as [t w2].
  simpl in *. by eapply store_ok_frame; [.. | exact Hg].
Qed.

Lemma store_ok_addEdge w st dom link :
  store_ok st → store_ok (addEdge w st dom link).1.
Proof.
  intros Hok. unfold addEdge.
  pose proof (store_ok_getGraph w st dom Hok) as Hg.
  destruct (getGraph w st dom) as [[g st1] w1]. destruct (now w1) as [t w2].
  simpl in *. apply store_ok_storeLink.
  by eapply store_ok_frame; [.. | exact Hg].
Qed.

Lemma store_ok_createLink w st c e s n su mech t :
  store_ok st → store_ok (createLink w st c e s n su mech t).1.2.
Proof.
  intros Hok. unfold createLink. destruct (generateId _ _) as [id w1]. simpl.
  by apply store_ok_storeLink.
Qed.

Lemma store_ok_discover_step `{!JSSqrt num} {V}
  (obs : list (Observation V)) dom acc entry :
  store_ok acc.1.2 → store_ok (discover_step obs dom acc entry).1.2.
Proof.
  destruct acc as [[discovered st] w], entry as [varPair correlation].
  unfold discover_step. cbn [fst snd]. intros Hok.
  destruct (ngt correlation n0_7); [| done].
  destruct (split_pair varPair) as [var1 var2].
  destruct (checkTemporalPrecedence w var1 var2 obs) as [[] w1]; [| done].
  pose proof (store_ok_createLink w1 st var1 var2 (Some correlation)
    (Some (correlation * n0_8)%num) (Some (correlation * n0_6)%num)
    None None Hok) as Hc.
  destruct (createLink _ _ _ _ _ _ _ _ _) as [[link st1] w2].
  cbn [fst snd] in Hc.
  pose proof (store_ok_addEdge w2 st1 dom link Hc) as He.
  by destruct (addEdge w2 st1 dom link) as [st2 w3].
Qed.

Lemma store_ok_discoverCausality `{!JSSqrt num} {V} w st
  (obs : list (Observation V)) dom :
  store_ok st → store_ok (discoverCausality w st obs dom).1.2.
Proof.
  unfold discoverCausality. generalize (computeCorrelations obs) as cs.
  intros cs Hok.
  assert (Hgen : ∀ acc, store_ok acc.1.2 →
    store_ok (fold_left (discover_step obs dom) cs acc).1.2).
  { induction cs as [| entry cs IH]; intros acc Hacc; simpl; [done |].
    by apply IH, store_ok_discover_step. }
  by apply Hgen.
Qed.

(** The state [predictIntervention] leaves: the store with the links
    [D] it found cut out of the effect index and put back. *)
Lemma predictIntervention_state {V} st (intervention : JSMap V) target :
  is_map intervention →
  ∃ D, Forall (stored st) D
     ∧ (predictIntervention st intervention target).2
       = set_linksByEffect st
           (reindex_all D (unindex_all D (linksByEffect st))).
Proof.
  intros Hmap. unfold predictIntervention.
  destruct (sever_causes_spec st intervention Hmap) as (D & Hst & HD & Hcat).
  destruct (sever_causes st intervention) as [st1 removed]. simpl in *.
  exists D. split; [done |].
  by rewrite restore_causes_spec, Hcat, Hst.
Qed.

Lemma store_ok_predictIntervention {V} st (intervention : JSMap V) target :
  is_map intervention →
  store_ok st → store_ok (predictIntervention st intervention target).2.
Proof.
  intros Hmap Hok.
  destruct (predictIntervention_state st intervention target Hmap)
    as (D & HD & ->).
  pose proof Hok as [H1 H2 H3 H4 H5]. constructor; simpl; try done.
  - intros id l Hl. apply indexed_restore; auto.
  - by apply sets_ok_reindex_all, sets_ok_unindex_all.
Qed.

Lemma store_ok_counterfactual {V} st (actual cf : JSMap V) target :
  is_map actual → is_map cf →
  store_ok st → store_ok (counterfactual st actual cf target).2.
Proof.
  intros Ha Hc Hok. unfold counterfactual.
  pose proof (store_ok_predictIntervention st actual target Ha Hok) as H1.
  destruct (predictIntervention st actual target) as [a st1].
  pose proof (store_ok_predictIntervention st1 cf target Hc H1) as H2.
  by destruct (predictIntervention st1 cf target) as [c st2].
Qed.

(** Every state of the engine is consistent. *)
Lemma reachable_ok `{!JSSqrt num} st : reachable st → store_ok st.
Proof.
  induction 1.
  - apply store_ok_empty.
  - apply store_ok_empty.
  - by apply store_ok_createGraph.
  - by apply store_ok_getGraph.
  - by apply store_ok_addNode.
  - by apply store_ok_addEdge.
  - by apply store_ok_createLink.
  - by apply store_ok_addEvidence.
  - by apply store_ok_updateModel.
  - by apply store_ok_predictIntervention.
  - by apply store_ok_counterfactual.
  - by apply store_ok_discoverCausality.
Qed.


End StoreInvariant.

(** ** The traversals *)

Section Traversals.
Context {num : Type} `{JSNumber num}.
Implicit Types st : CausalReasoning num.

Lemma path_end_cons start (l : CausalLink num) path :
  path_end start (l :: path) = path_end (effect l) path.
Proof. unfold path_end. rewrite last_cons. by destruct (last path). Qed.

Lemma follows_snoc st start path link :
  follows st start path → link ∈ getEffects st (path_end start path) →
  follows st start (path ++ [link]).
Proof.
  revert start. induction path as [| l path IH]; intros start.
  - simpl. by intros _ Hl.
  - rewrite path_end_cons. simpl. intros [Hl Hp] Hlink. split; [done |].
    by apply IH.
Qed.

Lemma path_end_snoc start path (link : CausalLink num) :
  path_end start (path ++ [link]) = effect link.
Proof. unfold path_end. by rewrite last_snoc. Qed.

Lemma strength_product_snoc conf path (link : CausalLink num) :
  strength_product conf (path ++ [link])
  = (strength_product conf path * strength link)%num.
Proof. unfold strength_product. by rewrite fold_left_app. Qed.

(** The closure of [predictEffect], entered at depth [length path] with
    a path from [origin] to [currentId] and its product of strengths,
    adds only results that [prediction_ok] accepts. *)
Lemma explore_effects_ok st origin maxSteps :
  ∀ remaining currentId path conf acc,
    Forall (prediction_ok st origin maxSteps) acc.2 →
    follows st origin path → path_end origin path = currentId →
    conf = strength_product n1 path →
    (length path + remaining ≤ maxSteps)%nat →
    Forall (prediction_ok st origin maxSteps)
      (explore_effects remaining st currentId path conf acc).2.
Proof.
  induction remaining as [| r IH]; intros currentId path conf acc
    Hacc Hpath Hend Hconf Hlen; simpl; [done |].
  destruct (set_has acc.1 currentId); [done |].
  assert (Hsub : ∀ l, l ∈ getEffects st currentId → l ∈ getEffects st currentId)
    by done.
  revert Hsub. generalize (getEffects st currentId) at 1 3 as effects.
  set (visited := set_add currentId acc.1).
  assert (Hacc' : Forall (prediction_ok st origin maxSteps) (visited, acc.2).2)
    by done.
  revert Hacc'. generalize (visited, acc.2) as acc'. clear Hacc.
  intros acc' Hacc' effects. revert acc' Hacc'.
  induction effects as [| link effects IHe]; intros acc' Hacc' Hsub; simpl;
    [done |].
  assert (Hlink : link ∈ getEffects st currentId) by (apply Hsub; by left).
  apply IHe; [| intros l Hl; apply Hsub; by right].
  apply IH.
  - simpl. apply Forall_app. split; [done |]. apply Forall_singleton.
    repeat split; simpl.
    + rewrite length_app. simpl. lia.
    + rewrite length_app. simpl. lia.
    + apply follows_snoc; [done |]. by rewrite Hend.
    + by rewrite path_end_snoc.
    + by rewrite strength_product_snoc, Hconf.
  - apply follows_snoc; [done |]. by rewrite Hend.
  - by rewrite path_end_snoc.
  - by rewrite strength_product_snoc, Hconf.
  - rewrite length_app. simpl. lia.
Qed.

Lemma predictEffect_ok st origin maxSteps r :
  r ∈ predictEffect st origin maxSteps → prediction_ok st origin maxSteps r.
Proof.
  unfold predictEffect. rewrite elem_of_Array_sort. revert r.
  apply Forall_forall, explore_effects_ok; simpl; done.
Qed.

Lemma traces_cons st path target link :
  traces st path target → link ∈ getCauses st (path_start path target) →
  traces st (link :: path) target.
Proof. intros Hp Hl. simpl. split; [| done]. by destruct path. Qed.

(** The closure of [explainEffect] likewise. *)
Lemma explore_causes_ok st target maxSteps :
  ∀ remaining currentId path conf acc,
    Forall (explanation_ok st target maxSteps) acc.2 →
    traces st path target → path_start path target = currentId →
    conf = necessity_product n1 path →
    (length path + remaining ≤ maxSteps)%nat →
    Forall (explanation_ok st target maxSteps)
      (explore_causes remaining st currentId path conf acc).2.
Proof.
  induction remaining as [| r IH]; intros currentId path conf acc
    Hacc Hpath Hstart Hconf Hlen; simpl; [done |].
  destruct (set_has acc.1 currentId); [done |].
  assert (Hsub : ∀ l, l ∈ getCauses st currentId → l ∈ getCauses st currentId)
    by done.
  revert Hsub. generalize (getCauses st currentId) at 1 3 as causes.
  set (visited := set_add currentId acc.1).
  assert (Hacc' : Forall (explanation_ok st target maxSteps) (visited, acc.2).2)
    by done.
  revert Hacc'. generalize (visited, acc.2) as acc'. clear Hacc.
  intros acc' Hacc' causes. revert acc' Hacc'.
  induction causes as [| link causes IHc]; intros acc' Hacc' Hsub; simpl;
    [done |].
  assert (Hlink : link ∈ getCauses st currentId) by (apply Hsub; by left).
  apply IHc; [| intros l Hl; apply Hsub; by right].
  apply IH.
  - simpl. apply Forall_app. split; [done |]. apply Forall_singleton.
    repeat split; simpl; try lia.
    + by destruct path; rewrite <- Hstart in Hlink.
    + done.
    + by rewrite Hconf.
  - apply traces_cons; [done |]. by rewrite Hstart.
  - done.
  - simpl. by rewrite Hconf.
  - simpl. lia.
Qed.

Lemma explainEffect_ok st target maxSteps r :
  r ∈ explainEffect st target maxSteps → explanation_ok st target maxSteps r.
Proof.
  unfold explainEffect. rewrite elem_of_Array_sort. revert r.
  apply Forall_forall, explore_causes_ok; simpl; done.
Qed.

(** [findCausalPaths] records a path only below the length bound. *)
Lemma explore_paths_short st to maxLength :
  ∀ remaining currentId path acc,
    Forall (fun p => length p < maxLength)%nat acc.2 →
    (length path + remaining ≤ maxLength)%nat →
    Forall (fun p => length p < maxLength)%nat
      (explore_paths remaining st to currentId path acc).2.
Proof.
  induction remaining as [| r IH]; intros currentId path acc Hacc Hlen;
    simpl; [done |].
  destruct (_ && _).
  { simpl. apply Forall_app. split; [done |]. apply Forall_singleton. lia. }
  destruct (set_has acc.1 currentId); [done |]. simpl.
  generalize (getEffects st currentId) as effects.
  set (visited := set_add currentId acc.1).
  assert (Hacc' : Forall (fun p => length p < maxLength)%nat (visited, acc.2).2)
    by done.
  revert Hacc'. generalize (visited, acc.2) as acc'. clear Hacc.
  intros acc' Hacc' effects. revert acc' Hacc'.
  induction effects as [| link effects IHe]; intros acc' Hacc'; simpl; [done |].
  apply IHe, IH; [done |]. rewrite length_app. simpl. lia.
Qed.

Lemma findCausalPaths_short st from to maxLength p :
  p ∈ findCausalPaths st from to maxLength → (length p < maxLength)%nat.
Proof.
  unfold findCausalPaths. revert p.
  apply Forall_forall, explore_paths_short; simpl; [constructor | lia].
Qed.

End Traversals.

(** * The claims *)

(** ** Intervention *)

Section InterventionClaims.
Context {num : Type} `{JSNumber num}.
Implicit Types st : CausalReasoning num.



(** The consistency of the store is what the restoration rests on: on
    the misfiled store an intervention on X and Y leaves one link under
    Y where there was none. *)
Lemma restoration_needs_consistency :
  let st : CausalReasoning float := misfiled_store in
  let st' := (predictIntervention st [("X", true); ("Y", true)] "Z").2 in
  getCauses st "Y" = [] ∧ length (getCauses st' "Y") = 1.
Proof. by vm_compute. Qed.


(** C10: cutting the incoming links has no influence on the answer of
    [predictIntervention]: in every state of the fields it is the first
    match that plain [predictEffect] gives on the store as it was before
    the call, the keys being tried in order.  The reason: the store the
    search runs on differs from the store before the call in the effect
    index only, and [getEffects] and [predictEffect] give the same on
    two stores with the same links and the same cause index. *)
Theorem predictIntervention_is_plain_search {V} st
  (intervention : JSMap V) (targetEffect : EntityId) :
  (predictIntervention st intervention targetEffect).1
  = first_plain_match st (map_keys intervention) targetEffect
  ∧ links (sever_causes st intervention).1 = links st
  ∧ linksByCause (sever_causes st intervention).1 = linksByCause st
  ∧ ∀ st1 st2 : CausalReasoning num,
      links st1 = links st2 → linksByCause st1 = linksByCause st2 →
      ∀ c maxSteps,
        getEffects st1 c = getEffects st2 c
        ∧ predictEffect st1 c maxSteps = predictEffect st2 c maxSteps.
Proof.
  destruct (sever_causes_frame st intervention) as (Hl & Hc & _).
  split; [| split; [done | split; [done |]]].
  - unfold predictIntervention.
    destruct (sever_causes st intervention) as [st1 removed]. simpl in *.
    by rewrite (search_target_frame st1 st), search_target_keys.
  - intros st1 st2 Hl12 Hc12 c maxSteps.
    split; [by apply getEffects_frame | by apply predictEffect_frame].
Qed.

End InterventionClaims.

(** ** Traversals *)

Ltac run_vm t := let v := eval vm_compute in t in change t with v.

(** C3 (what the code does): on the chain A→B→C→D,
    [findCausalPaths(A, D, 2)] is empty, and so is
    [findCausalPaths(A, D, 3)]: the path of three links comes out only
    for [maxLength = 4], and no call ever returns a path of [maxLength]
    links.  [predictEffect(A, 3)] does follow the three links to D. *)
Theorem findCausalPaths_chain :
  ∀ (num : Type) (HN : JSNumber num) (s1 s2 s3 nec1 nec2 nec3 : num),
    let st := chain s1 s2 s3 nec1 nec2 nec3 in
    findCausalPaths st "A" "D" 2 = []
    ∧ findCausalPaths st "A" "D" 3 = []
    ∧ findCausalPaths st "A" "D" 4
      = [getEffects st "A" ++ getEffects st "B" ++ getEffects st "C"]
    ∧ length (getEffects st "A" ++ getEffects st "B" ++ getEffects st "C") = 3
    ∧ (∀ (st' : CausalReasoning num) from to maxLength p,
         p ∈ findCausalPaths st' from to maxLength → length p < maxLength)
    ∧ ∃ r, r ∈ predictEffect st "A" 3
           ∧ concept_id (prediction r) = "D" ∧ length (causalPath r) = 3.
Proof.
  intros num HN s1 s2 s3 nec1 nec2 nec3 st. subst st.
  split; [by vm_compute |]. split; [by vm_compute |].
  split; [by vm_compute |]. split; [by vm_compute |].
  split; [apply findCausalPaths_short |].
  eexists. split.
  - apply elem_of_Array_sort.
    run_vm (explore_effects 3 (chain s1 s2 s3 nec1 nec2 nec3) "A" [] n1
              ([], [])).2.
    do 2 apply list_elem_of_further. apply list_elem_of_here.
  - by split.
Qed.

(** C4: on the chain A→B→C→D with strengths 0.9, 0.8 and 0.7,
    [predictEffect(A, 3)] has a result for D whose confidence is the
    binary64 product 1.0 * 0.9 * 0.8 * 0.7, less than 1e-9 away from
    0.504 (and equal to 504/1000 in exact arithmetic); its results are
    those for B, C and D, and with [maxSteps = 2] those for B and C.  In
    every store and for every origin and [maxSteps], each result carries
    a path of at least one and at most [maxSteps] links that follows the
    cause index from the origin to the predicted node, and its
    confidence is the product of the strengths along that path. *)
Theorem predictEffect_chain_product :
  (∃ r : CausalInferenceResult float,
     r ∈ predictEffect (chain 0.9 0.8 0.7 0.5 0.5 0.5)%float "A" 3
     ∧ concept_id (prediction r) = "D"
     ∧ confidence r = (1 * 0.9 * 0.8 * 0.7)%float
     ∧ PrimFloat.ltb (PrimFloat.abs (confidence r - 0.504)) 1e-9 = true)
  ∧ (λ r, concept_id (prediction r))
      <$> predictEffect (chain 0.9 0.8 0.7 0.5 0.5 0.5)%float "A" 3
    = ["B"; "C"; "D"]
  ∧ (λ r, concept_id (prediction r))
      <$> predictEffect (chain 0.9 0.8 0.7 0.5 0.5 0.5)%float "A" 2
    = ["B"; "C"]
  ∧ (∃ r : CausalInferenceResult Q,
       r ∈ predictEffect (chain (9 # 10) (8 # 10) (7 # 10) 1 1 1)%Q "A" 3
       ∧ concept_id (prediction r) = "D"
       ∧ (confidence r == 504 # 1000)%Q)
  ∧ (∀ (num : Type) (HN : JSNumber num) (st : CausalReasoning num)
       (origin : EntityId) (maxSteps : nat) r,
       r ∈ predictEffect st origin maxSteps →
       prediction_ok st origin maxSteps r).
Proof.
  split; [| split; [| split; [| split]]].
  - eexists. split.
    + apply elem_of_Array_sort.
      run_vm (explore_effects 3 (chain 0.9 0.8 0.7 0.5 0.5 0.5)%float "A" []
                n1 ([], [])).2.
      do 2 apply list_elem_of_further. apply list_elem_of_here.
    + by vm_compute.
  - by vm_compute.
  - by vm_compute.
  - eexists. split.
    + apply elem_of_Array_sort.
      run_vm (explore_effects 3 (chain (9 # 10) (8 # 10) (7 # 10) 1 1 1)%Q
                "A" [] n1 ([], [])).2.
      do 2 apply list_elem_of_further. apply list_elem_of_here.
    + by vm_compute.
  - intros num HN st origin maxSteps r. apply predictEffect_ok.
Qed.

(** C5: on the chain A→B→C→D, whatever the strengths and necessities of
    its links, [explainEffect(D, 3)] has a result for A whose confidence
    is the product of the three necessities, multiplied from the link
    into D backward, starting from the constant 1.0 of the code; no
    strength enters it.  In exact arithmetic this is the product of the
    three necessities; on binary64, with strengths 0.9, 0.8, 0.6 and
    necessities 0.8, 0.7, 0.5, it is 0.5 * 0.7 * 0.8 and differs from
    the product of the strengths.  In every store, the confidence of a
    result of [explainEffect] is the product of the necessities along
    its path, which traces the effect index back from the effect. *)
Theorem explainEffect_chain_necessity :
  (∀ (num : Type) (HN : JSNumber num) (s1 s2 s3 nec1 nec2 nec3 : num),
     ∃ r, r ∈ explainEffect (chain s1 s2 s3 nec1 nec2 nec3) "D" 3
          ∧ concept_id (prediction r) = "A"
          ∧ confidence r = (n1 * nec3 * nec2 * nec1)%num)
  ∧ (∀ s1 s2 s3 nec1 nec2 nec3 : Q,
       ∃ r, r ∈ explainEffect (chain s1 s2 s3 nec1 nec2 nec3) "D" 3
            ∧ concept_id (prediction r) = "A"
            ∧ (confidence r == nec1 * nec2 * nec3)%Q)
  ∧ (∃ r : CausalInferenceResult float,
       r ∈ explainEffect (chain 0.9 0.8 0.6 0.8 0.7 0.5)%float "D" 3
       ∧ concept_id (prediction r) = "A"
       ∧ confidence r = (0.5 * 0.7 * 0.8)%float
       ∧ PrimFloat.eqb (confidence r) (0.9 * 0.8 * 0.6) = false)
  ∧ (∀ (num : Type) (HN : JSNumber num) (st : CausalReasoning num)
       (target : EntityId) (maxSteps : nat) r,
       r ∈ explainEffect st target maxSteps →
       explanation_ok st target maxSteps r).
Proof.
  assert (Hchain : ∀ (num : Type) (HN : JSNumber num)
    (s1 s2 s3 nec1 nec2 nec3 : num),
    ∃ r, r ∈ explainEffect (chain s1 s2 s3 nec1 nec2 nec3) "D" 3
         ∧ concept_id (prediction r) = "A"
         ∧ confidence r = (n1 * nec3 * nec2 * nec1)%num).
  { intros num HN s1 s2 s3 nec1 nec2 nec3. eexists. split.
    - apply elem_of_Array_sort.
      run_vm (explore_causes 3 (chain s1 s2 s3 nec1 nec2 nec3) "D" [] n1
                ([], [])).2.
      do 2 apply list_elem_of_further. apply list_elem_of_here.
    - by split. }
  split; [exact Hchain |]. split; [| split].
  - intros s1 s2 s3 nec1 nec2 nec3.
    destruct (Hchain Q _ s1 s2 s3 nec1 nec2 nec3) as (r & Hr & Hid & Hconf).
    exists r. split; [done |]. split; [done |]. rewrite Hconf. simpl. ring.
  - destruct (Hchain float _ 0.9 0.8 0.6 0.8 0.7 0.5)%float
      as (r & Hr & Hid & Hconf).
    exists r. split; [done |]. split; [done |]. rewrite Hconf.
    by vm_compute.
  - intros num HN st target maxSteps r. apply explainEffect_ok.
Qed.

(** ** The link store *)






(** ** The belief updater *)

(** C9 (counterexample): a link of strength 1 that receives supporting
    evidence of reliability 0 keeps strength 1, where the quotient
    L·p / (L·p + (1−L)·(1−p)) is 0/0, not a number. *)
Lemma updateModel_zero_denominator :
  let link := (one_link 1%float).1 in
  let st := (one_link 1%float).2 in
  let id := link_id link in
  let e := evidence_of 0%float (Some id) None in
  let p := reinforced (strength link) [e] in
  p = 1%float
  ∧ (strength <$> getLink (updateModel st id e) id) = Some 1%float
  ∧ PrimFloat.is_nan (posterior_support (reliability e) p) = true
  ∧ 1%float ≠ posterior_support (reliability e) p.
Proof.
  intros link st id e p. repeat split; by vm_compute.
Qed.

(** C9 (amended): on a stored link [updateModel] appends the evidence
    as [addEvidence] does and then, with [p] the strength after the
    append and [L] the reliability of the evidence: if the evidence
    supports this link, the strength becomes L·p / (L·p + (1−L)·(1−p))
    when that denominator is above 0 and stays [p] otherwise; if it
    does not support but contradicts this link, the strength becomes
    (1−L)·p / ((1−L)·p + L·(1−p)) when that denominator is above 0 and
    stays [p] otherwise; in every other case it stays [p].  No other
    link and no index changes. *)
Theorem updateModel_bayes :
  ∀ (num : Type) (HN : JSNumber num) (st : CausalReasoning num)
    (linkId : EntityId) (e : Evidence num) (link : CausalLink num),
    links st !! linkId = Some link →
    let p := reinforced (strength link) (evidence link ++ [e]) in
    let L := reliability e in
    let posterior :=
      if is_id (supportsHypothesis e) linkId then
        if (L * p + (n1 - L) * (n1 - p) >? n0)%num
        then posterior_support L p else p
      else if is_id (contradictsHypothesis e) linkId then
        if ((n1 - L) * p + L * (n1 - p) >? n0)%num
        then posterior_contradict L p else p
      else p in
    links (updateModel st linkId e)
    = <[linkId := set_strength (push_evidence link e) posterior]> (links st)
    ∧ linksByCause (updateModel st linkId e) = linksByCause st
    ∧ linksByEffect (updateModel st linkId e) = linksByEffect st.
Proof.
  intros num HN st linkId e link Hl p L posterior.
  unfold updateModel. rewrite Hl.
  assert (Hadd : addEvidence st linkId e
    = set_links st (<[linkId := set_strength (push_evidence link e) p]>
        (links st))).
  { unfold addEvidence. by rewrite Hl. }
  rewrite Hadd. simpl. rewrite lookup_insert_eq. subst posterior.
  destruct (is_id (supportsHypothesis e) linkId).
  { simpl. by rewrite insert_insert_eq. }
  destruct (is_id (contradictsHypothesis e) linkId).
  { simpl. by rewrite insert_insert_eq. }
  done.
Qed.

(** ** Discovery *)

(** C6 (what the code does): [discoverCausality] on one and the same
    batch, for one and the same domain, on a fresh engine, returns two
    links when [Math.random()] gives 0.9 and none when it gives 0.1. *)
Theorem discoverCausality_follows_random :
  let run (r : float) :=
    link_tuple <$>
    (discoverCausality (bench_world (fun _ => r)) empty_engine
       one_observation "d").1.1 in
  run 0.9%float = [("a", "b", 1, 0.8, 0.6); ("b", "a", 1, 0.8, 0.6)]%float
  ∧ run 0.1%float = []
  ∧ run 0.9%float ≠ run 0.1%float.
Proof.
  intros run. assert (H9 : run 0.9%float
    = [("a", "b", 1, 0.8, 0.6); ("b", "a", 1, 0.8, 0.6)]%float)
    by by vm_compute.
  assert (H1 : run 0.1%float = []) by by vm_compute.
  split; [done |]. split; [done |]. by rewrite H9, H1.
Qed.

(** ** Witnesses *)




(** C9 at a link of strength 0.5 and supporting evidence of
    reliability 0.9. *)
Lemma updateModel_bayes_witness :
  let link := (one_link 0.5%float).1 in
  let st := (one_link 0.5%float).2 in
  let id := link_id link in
  let e := evidence_of 0.9%float (Some id) None in
  (strength <$> getLink (updateModel st id e) id)
  = Some (posterior_support 0.9 (reinforced 0.5 [e]))%float.
Proof.
  intros link st id e. unfold getLink.
  rewrite (proj1 (updateModel_bayes float _ st id e link eq_refl)).
  rewrite lookup_insert_eq. reflexivity.
Defined.


(** * Further properties *)

(** ** The order of binary64 *)

Section FloatOrder.
Import SpecFloat.

Lemma SFcompare_antisym (a b : spec_float) c :
  SFcompare a b = Some c → SFcompare b a = Some (CompOpp c).
Proof.
  destruct a as [sa | sa | | sa ma ea], b as [sb | sb | | sb mb eb]; simpl;
    try done; try (intros [= <-]; by destruct sa; try destruct sb).
  intros [= <-]. f_equal.
  pose proof (Pos.compare_cont_antisym ma mb Eq) as Hm. simpl in Hm.
  destruct sa, sb; simpl; try done;
    rewrite (Z.compare_antisym ea eb);
    destruct (ea ?= eb)%Z; simpl; try done; by rewrite Hm.
Qed.

Lemma SFcompare_refl (a : spec_float) :
  a ≠ S754_nan → SFcompare a a = Some Eq.
Proof.
  destruct a as [sa | sa | | sa ma ea]; simpl; try done.
  - intros _. by destruct sa.
  - intros _. f_equal. rewrite Z.compare_refl.
    rewrite Pos.compare_cont_refl. by destruct sa.
Qed.

Lemma is_nan_false (x : float) :
  PrimFloat.is_nan x = false ↔ Prim2SF x ≠ S754_nan.
Proof.
  unfold PrimFloat.is_nan. rewrite FloatAxioms.eqb_spec. unfold SFeqb. split.
  - intros Hc Hn. rewrite Hn in Hc. done.
  - intros Hn. by rewrite SFcompare_refl.
Qed.

Lemma SFcompare_some (a b : spec_float) :
  a ≠ S754_nan → b ≠ S754_nan → ∃ c, SFcompare a b = Some c.
Proof.
  destruct a as [sa | sa | | sa ma ea], b as [sb | sb | | sb mb eb]; simpl;
    try done; eauto.
Qed.

Lemma SFcompare_not_nan (a b : spec_float) c :
  SFcompare a b = Some c → a ≠ S754_nan ∧ b ≠ S754_nan.
Proof. destruct a, b; simpl; try done. Qed.

(** [a < b] gives [a <= b]. *)
Lemma ltb_leb (a b : float) :
  PrimFloat.ltb a b = true → PrimFloat.leb a b = true.
Proof.
  rewrite FloatAxioms.ltb_spec, FloatAxioms.leb_spec. unfold SFltb, SFleb.
  by destruct (SFcompare _ _) as [[] |].
Qed.

(** Of two numbers one is below the other or they are equal. *)
Lemma not_ltb_leb (a b : float) :
  PrimFloat.is_nan a = false → PrimFloat.is_nan b = false →
  PrimFloat.ltb a b = false → PrimFloat.leb b a = true.
Proof.
  rewrite !is_nan_false, FloatAxioms.ltb_spec, FloatAxioms.leb_spec. unfold SFltb, SFleb.
  intros Ha Hb. destruct (SFcompare_some _ _ Ha Hb) as [c Hc].
  rewrite Hc, (SFcompare_antisym _ _ _ Hc). by destruct c.
Qed.

Lemma leb_not_nan (a b : float) :
  PrimFloat.leb a b = true →
  PrimFloat.is_nan a = false ∧ PrimFloat.is_nan b = false.
Proof.
  rewrite !is_nan_false, FloatAxioms.leb_spec. unfold SFleb.
  destruct (SFcompare _ _) as [c |] eqn:Hc; [| done].
  intros _. by eapply SFcompare_not_nan.
Qed.

Lemma leb_not_ltb (a b : float) :
  PrimFloat.leb a b = true → PrimFloat.ltb b a = false.
Proof.
  rewrite FloatAxioms.ltb_spec, FloatAxioms.leb_spec. unfold SFltb, SFleb.
  destruct (SFcompare (Prim2SF a) (Prim2SF b)) as [c |] eqn:Hc; [| done].
  rewrite (SFcompare_antisym _ _ _ Hc). by destruct c.
Qed.

End FloatOrder.

(** ** The link store, further *)

Section StoreExtras.
Context {num : Type} `{JSNumber num}.
Implicit Types st : CausalReasoning num.

Lemma indexed_getEffects st id l :
  links st !! id = Some l → indexed (linksByCause st) (cause l) id →
  l ∈ getEffects st (cause l).
Proof.
  intros Hl (s & Hs & Hin). unfold getEffects. rewrite Hs. simpl.
  apply list_elem_of_omap. by exists id.
Qed.

Lemma indexed_getCauses st id l :
  links st !! id = Some l → indexed (linksByEffect st) (effect l) id →
  l ∈ getCauses st (effect l).
Proof.
  intros Hl (s & Hs & Hin). unfold getCauses. rewrite Hs. simpl.
  apply list_elem_of_omap. by exists id.
Qed.


Lemma index_add_indexed m (k id : EntityId) : indexed (index_add m k id) k id.
Proof. apply indexed_index_add. by right. Qed.

(** X2: in every state of the fields, the link [createLink] returns is
    found by [getLink] under its id, by [getEffects] for its cause and by
    [getCauses] for its effect, and [findLink] from its cause to its
    effect finds a link with that effect. *)
Theorem createLink_then_lookup (w : World num) st (c e : EntityId)
  (s nec suf : option num) (mech : option string) (delay : option num) :
  let link := (createLink w st c e s nec suf mech delay).1.1 in
  let st' := (createLink w st c e s nec suf mech delay).1.2 in
  getLink st' (link_id link) = Some link
  ∧ link ∈ getEffects st' c
  ∧ link ∈ getCauses st' e
  ∧ ∃ found, findLink st' c e = Some found ∧ effect found = e.
Proof.
  unfold createLink. destruct (generateId (Some "causal") w) as [id w1].
  simpl. set (link := {| link_id := id |}).
  assert (Hl : links (storeLink st link) !! id = Some link)
    by (simpl; apply lookup_insert_eq).
  assert (He : link ∈ getEffects (storeLink st link) c).
  { apply (indexed_getEffects _ id link Hl). apply index_add_indexed. }
  split; [done |]. split; [done |]. split.
  - apply (indexed_getCauses _ id link Hl). apply index_add_indexed.
  - unfold findLink.
    destruct (List.find _ (getEffects (storeLink st link) c)) as [found |] eqn:Hf.
    + exists found. split; [done |].
      apply find_some in Hf as [_ Hf]. by apply String.eqb_eq in Hf.
    + apply list_elem_of_In in He.
      pose proof (find_none _ _ Hf link He) as Hn. simpl in Hn.
      by rewrite String.eqb_refl in Hn.
Qed.

End StoreExtras.


Section StatsExtras.
Context {num : Type} `{JSNumber num} `{JSMath num}.
Implicit Types st : CausalReasoning num.

(** X3: [createLink] never merges: the link count that [getStats]
    reports grows by one whenever the generated id is not in use, also
    when a link between the same two nodes is stored already; when the
    id is in use the link stored under it is replaced and the count
    stays. *)
Theorem createLink_counts (w : World num) st (c e : EntityId)
  (s nec suf : option num) (mech : option string) (delay : option num) :
  let id := (generateId (Some "causal") w).1 in
  let st' := (createLink w st c e s nec suf mech delay).1.2 in
  linkCount (getStats st')
  = match getLink st id with
    | None => S (linkCount (getStats st))
    | Some _ => linkCount (getStats st)
    end.
Proof.
  unfold createLink, getLink. destruct (generateId (Some "causal") w) as [id w1].
  simpl. destruct (links st !! id) as [old |] eqn:Hid.
  - rewrite <- (insert_delete_id (links st) id old Hid) at 2.
    rewrite <- insert_delete_eq.
    rewrite !map_size_insert_None by apply lookup_delete_eq. done.
  - by apply map_size_insert_None.
Qed.

(** X4: [getGraph] gets or creates: after a call for a domain, a second
    call returns the same graph and changes neither the engine nor the
    environment. *)
Theorem getGraph_again (w w' : World num) st (dom : string) :
  let '(graph, st1, _) := getGraph w st dom in
  getGraph w' st1 dom = (graph, st1, w').
Proof.
  unfold getGraph. destruct (graphs st !! dom) as [g |] eqn:Hg.
  - by rewrite Hg.
  - unfold createGraph. destruct (generateId _ _) as [gid w1].
    destruct (now w1) as [t1 w2]. destruct (now w2) as [t2 w3].
    simpl. by rewrite lookup_insert_eq.
Qed.

(** X5: after [addEdge(domain, link)] the domain has a graph whose
    edges include the id of the link, [getLink] finds the link under its
    id, and the graphs of the other domains are as they were. *)
Theorem addEdge_registers (w : World num) st (dom : string)
  (link : CausalLink num) :
  let st' := (addEdge w st dom link).1 in
  getLink st' (link_id link) = Some link
  ∧ (∃ graph, graphs st' !! dom = Some graph ∧ link_id link ∈ edges graph
       ∧ domain graph = match graphs st !! dom with
                        | Some g => domain g
                        | None => dom
                        end)
  ∧ ∀ other, other ≠ dom → graphs st' !! other = graphs st !! other.
Proof.
  unfold addEdge, getGraph. destruct (graphs st !! dom) as [g |] eqn:Hg.
  - destruct (now w) as [t w1]. simpl. split; [apply lookup_insert_eq |].
    split.
    + eexists. rewrite lookup_insert_eq. split; [done |]. split; [| done].
      simpl. apply elem_of_set_add. by right.
    + intros other Hne. by rewrite lookup_insert_ne.
  - unfold createGraph. destruct (generateId _ _) as [gid w1].
    destruct (now w1) as [t1 w2]. destruct (now w2) as [t2 w3].
    destruct (now w3) as [t3 w4]. simpl. split; [apply lookup_insert_eq |].
    split.
    + eexists. rewrite lookup_insert_eq. split; [done |]. split; [| done].
      simpl. apply elem_of_set_add. by right.
    + intros other Hne. by rewrite !lookup_insert_ne.
Qed.

End StatsExtras.

(** ** The traversals, further *)

Section TraversalExtras.
Context {num : Type} `{JSNumber num}.
Implicit Types st : CausalReasoning num.

(** What [findCausalPaths st from to maxLength] promises of a path. *)
Lemma explore_paths_sound st from to maxLength :
  let ok (p : list (CausalLink num)) :=
    (1 ≤ length p < maxLength)%nat ∧ follows st from p ∧ path_end from p = to in
  ∀ remaining currentId path acc,
    Forall ok acc.2 →
    follows st from path → path_end from path = currentId →
    (length path + remaining ≤ maxLength)%nat →
    Forall ok (explore_paths remaining st to currentId path acc).2.
Proof.
  intros ok. induction remaining as [| r IH]; intros currentId path acc
    Hacc Hpath Hend Hlen; simpl; [done |].
  destruct (String.eqb_spec currentId to) as [-> | Hne]; simpl.
  - destruct (0 <? length path)%nat eqn:Hpos; simpl.
    + apply Forall_app. split; [done |]. apply Forall_singleton.
      apply Nat.ltb_lt in Hpos. repeat split; try done; lia.
    + destruct (set_has acc.1 to); [done |]. simpl.
      assert (Hsub : ∀ l, l ∈ getEffects st to → l ∈ getEffects st to) by done.
      revert Hsub. generalize (getEffects st to) at 1 3 as effects.
      generalize (set_add to acc.1) as visited. intros visited.
      assert (Hacc' : Forall ok (visited, acc.2).2) by done.
      revert Hacc'. generalize (visited, acc.2) as acc'. clear Hacc.
      intros acc' Hacc' effects. revert acc' Hacc'.
      induction effects as [| link effects IHe]; intros acc' Hacc' Hsub; simpl;
        [done |].
      apply IHe; [| intros l Hl; apply Hsub; by right].
      apply IH; [done | | by rewrite path_end_snoc | rewrite length_app; simpl; lia].
      apply follows_snoc; [done |]. rewrite Hend. apply Hsub. by left.
  - destruct (set_has acc.1 currentId); [done |]. simpl.
    assert (Hsub : ∀ l, l ∈ getEffects st currentId → l ∈ getEffects st currentId)
      by done.
    revert Hsub. generalize (getEffects st currentId) at 1 3 as effects.
    generalize (set_add currentId acc.1) as visited. intros visited.
    assert (Hacc' : Forall ok (visited, acc.2).2) by done.
    revert Hacc'. generalize (visited, acc.2) as acc'. clear Hacc.
    intros acc' Hacc' effects. revert acc' Hacc'.
    induction effects as [| link effects IHe]; intros acc' Hacc' Hsub; simpl;
      [done |].
    apply IHe; [| intros l Hl; apply Hsub; by right].
    apply IH; [done | | by rewrite path_end_snoc | rewrite length_app; simpl; lia].
    apply follows_snoc; [done |]. rewrite Hend. apply Hsub. by left.
Qed.

(** X6: every path [findCausalPaths] returns has at least one link and
    fewer than [maxLength], follows the cause index from [from], and
    ends in [to]; so for [maxLength] 0 or 1 nothing is returned. *)
Theorem findCausalPaths_sound st (from to : EntityId) (maxLength : nat) :
  (∀ p, p ∈ findCausalPaths st from to maxLength →
     (1 ≤ length p < maxLength)%nat
     ∧ follows st from p ∧ path_end from p = to)
  ∧ ((maxLength ≤ 1)%nat → findCausalPaths st from to maxLength = []).
Proof.
  assert (Hall : ∀ p, p ∈ findCausalPaths st from to maxLength →
     (1 ≤ length p < maxLength)%nat
     ∧ follows st from p ∧ path_end from p = to).
  { unfold findCausalPaths. apply Forall_forall.
    apply (explore_paths_sound st from to maxLength); simpl; done. }
  split; [done |]. intros Hmax.
  destruct (findCausalPaths st from to maxLength) as [| p ps] eqn:Hp; [done |].
  destruct (Hall p) as [Hlen _]; [by left | lia].
Qed.

(** The closures only ever add results. *)
Lemma fold_left_grows {A B C} (f : C * list A → B → C * list A) (l : list B) :
  (∀ a b, ∃ more, (f a b).2 = a.2 ++ more) →
  ∀ a, ∃ more, (fold_left f l a).2 = a.2 ++ more.
Proof.
  intros Hf. induction l as [| b l IH]; intros a; simpl.
  - exists []. by rewrite app_nil_r.
  - destruct (IH (f a b)) as [more2 ->]. destruct (Hf a b) as [more1 ->].
    eexists. by rewrite <- app_assoc.
Qed.

Lemma explore_effects_grows st :
  ∀ remaining currentId path conf acc,
    ∃ more, (explore_effects remaining st currentId path conf acc).2
            = acc.2 ++ more.
Proof.
  induction remaining as [| r IH]; intros currentId path conf acc; simpl.
  - exists []. by rewrite app_nil_r.
  - destruct (set_has acc.1 currentId); [exists []; by rewrite app_nil_r |].
    change acc.2 with (set_add currentId acc.1, acc.2).2 at 2.
    apply fold_left_grows. intros a link.
    match goal with |- ∃ more, (explore_effects r st ?c ?p ?cf ?b).2 = _ =>
      destruct (IH c p cf b) as [more1 ->] end.
    simpl. eexists. by rewrite <- app_assoc.
Qed.

Lemma explore_causes_grows st :
  ∀ remaining currentId path conf acc,
    ∃ more, (explore_causes remaining st currentId path conf acc).2
            = acc.2 ++ more.
Proof.
  induction remaining as [| r IH]; intros currentId path conf acc; simpl.
  - exists []. by rewrite app_nil_r.
  - destruct (set_has acc.1 currentId); [exists []; by rewrite app_nil_r |].
    change acc.2 with (set_add currentId acc.1, acc.2).2 at 2.
    apply fold_left_grows. intros a link.
    match goal with |- ∃ more, (explore_causes r st ?c ?p ?cf ?b).2 = _ =>
      destruct (IH c p cf b) as [more1 ->] end.
    simpl. eexists. by rewrite <- app_assoc.
Qed.

Lemma explore_effects_first st r currentId path conf :
  getEffects st currentId ≠ [] →
  (explore_effects (S r) st currentId path conf ([], [])).2 ≠ [].
Proof.
  intros Hne. simpl. destruct (getEffects st currentId) as [| link effects];
    [done |]. simpl.
  match goal with |- (fold_left ?f effects ?a0).2 ≠ [] =>
    assert (Hf : ∀ a b, ∃ more, (f a b).2 = a.2 ++ more);
      [| destruct (fold_left_grows f effects Hf a0) as [more2 ->]] end.
  { intros a l.
    match goal with |- ∃ more, (explore_effects r st ?c ?p ?cf ?b).2 = _ =>
      destruct (explore_effects_grows st r c p cf b) as [more1 ->] end.
    simpl. eexists. by rewrite <- app_assoc. }
  match goal with |- (explore_effects r st ?c ?p ?cf ?b).2 ++ _ ≠ [] =>
    destruct (explore_effects_grows st r c p cf b) as [more1 ->] end.
  simpl. by destruct more1.
Qed.

Lemma explore_causes_first st r currentId path conf :
  getCauses st currentId ≠ [] →
  (explore_causes (S r) st currentId path conf ([], [])).2 ≠ [].
Proof.
  intros Hne. simpl. destruct (getCauses st currentId) as [| link causes];
    [done |]. simpl.
  match goal with |- (fold_left ?f causes ?a0).2 ≠ [] =>
    assert (Hf : ∀ a b, ∃ more, (f a b).2 = a.2 ++ more);
      [| destruct (fold_left_grows f causes Hf a0) as [more2 ->]] end.
  { intros a l.
    match goal with |- ∃ more, (explore_causes r st ?c ?p ?cf ?b).2 = _ =>
      destruct (explore_causes_grows st r c p cf b) as [more1 ->] end.
    simpl. eexists. by rewrite <- app_assoc. }
  match goal with |- (explore_causes r st ?c ?p ?cf ?b).2 ++ _ ≠ [] =>
    destruct (explore_causes_grows st r c p cf b) as [more1 ->] end.
  simpl. by destruct more1.
Qed.

Lemma Array_sort_nil {A} (comparator : A → A → num) (l : list A) :
  Array_sort comparator l = [] ↔ l = [].
Proof.
  split; [| by intros ->]. intros Hnil.
  pose proof (Array_sort_perm comparator l) as Hp. rewrite Hnil in Hp.
  by apply Permutation_nil in Hp.
Qed.

(** X7: [predictEffect] returns nothing exactly when [maxSteps] is 0 or
    the origin has no outgoing link, and [explainEffect] exactly when
    [maxSteps] is 0 or the effect has no incoming link; a node the index
    does not know is such a node. *)
Theorem traversal_empty_iff st (node : EntityId) (maxSteps : nat) :
  (predictEffect st node maxSteps = [] ↔ maxSteps = 0%nat ∨ getEffects st node = [])
  ∧ (explainEffect st node maxSteps = [] ↔ maxSteps = 0%nat ∨ getCauses st node = [])
  ∧ (linksByCause st !! node = None → getEffects st node = [])
  ∧ (linksByEffect st !! node = None → getCauses st node = []).
Proof.
  split; [| split; [| split]].
  - unfold predictEffect. rewrite Array_sort_nil. split.
    + intros Hnil. destruct maxSteps as [| r]; [by left |]. right.
      destruct (getEffects st node) as [| l ls] eqn:Hg; [done |].
      by apply explore_effects_first in Hnil; [| rewrite Hg].
    + intros [-> | Hno]; [done |]. destruct maxSteps as [| r]; [done |].
      simpl. by rewrite Hno.
  - unfold explainEffect. rewrite Array_sort_nil. split.
    + intros Hnil. destruct maxSteps as [| r]; [by left |]. right.
      destruct (getCauses st node) as [| l ls] eqn:Hg; [done |].
      by apply explore_causes_first in Hnil; [| rewrite Hg].
    + intros [-> | Hno]; [done |]. destruct maxSteps as [| r]; [done |].
      simpl. by rewrite Hno.
  - unfold getEffects. by intros ->.
  - unfold getCauses. by intros ->.
Qed.

End TraversalExtras.

(** ** Intervention and counterfactuals, further *)

Section InterventionExtras.
Context {num : Type} `{JSNumber num}.
Implicit Types st : CausalReasoning num.

(** [predictIntervention] writes the effect index only, whatever the
    state and the map. *)
Lemma predictIntervention_frame {V} st (intervention : JSMap V) target :
  links (predictIntervention st intervention target).2 = links st
  ∧ linksByCause (predictIntervention st intervention target).2
    = linksByCause st
  ∧ graphs (predictIntervention st intervention target).2 = graphs st.
Proof.
  unfold predictIntervention.
  destruct (sever_causes_frame st intervention) as (Hl & Hc & Hg).
  destruct (sever_causes st intervention) as [st1 removed]. simpl in *.
  by rewrite restore_causes_spec.
Qed.

Lemma predictIntervention_search {V} st (intervention : JSMap V) target :
  (predictIntervention st intervention target).1
  = search_target st intervention target.
Proof.
  unfold predictIntervention.
  destruct (sever_causes_frame st intervention) as (Hl & Hc & _).
  destruct (sever_causes st intervention) as [st1 removed]. simpl in *.
  by apply search_target_frame.
Qed.

Lemma search_target_Some {V} st (intervention : JSMap V) target r :
  search_target st intervention target = Some r →
  concept_id (prediction r) = target
  ∧ ∃ key, key ∈ map_keys intervention ∧ r ∈ predictEffect st key 3.
Proof.
  induction intervention as [| [varId v] rest IH]; simpl; [done |].
  destruct (List.find _ _) as [p |] eqn:Hf.
  - intros [= <-]. apply find_some in Hf as [Hin Heq].
    apply String.eqb_eq in Heq. split; [done |].
    exists varId. split; [by left | by apply list_elem_of_In].
  - intros Hs. destruct (IH Hs) as (Hid & key & Hk & Hr).
    split; [done |]. exists key. split; [by right | done].
Qed.

Lemma search_target_None {V} st (intervention : JSMap V) target :
  search_target st intervention target = None
  ↔ ∀ key r, key ∈ map_keys intervention → r ∈ predictEffect st key 3 →
      concept_id (prediction r) ≠ target.
Proof.
  induction intervention as [| [varId v] rest IH]; simpl.
  - split; [| done]. intros _ key r Hk. by apply elem_of_nil in Hk.
  - destruct (List.find _ _) as [p |] eqn:Hf.
    + split; [done |]. intros Hall. apply find_some in Hf as [Hin Heq].
      apply String.eqb_eq in Heq. apply list_elem_of_In in Hin.
      destruct (Hall varId p); [by left | done | done].
    + rewrite IH. split.
      * intros Hall key r [-> | Hk]%elem_of_cons Hr; [| by eapply Hall].
        apply list_elem_of_In in Hr.
        pose proof (find_none _ _ Hf r Hr) as Hn. simpl in Hn.
        by apply String.eqb_neq in Hn.
      * intros Hall key r Hk Hr. apply (Hall key r); [by right | done].
Qed.

(** X8: in every state of the fields, a result of [predictIntervention]
    is a prediction for the target that [predictEffect], with three
    steps, gives on the store before the call for one of the keys of the
    map; and the result is null exactly when [predictEffect] gives no
    prediction for the target for any key, so always for the empty
    map. *)
Theorem predictIntervention_result {V} st (intervention : JSMap V)
  (targetEffect : EntityId) :
  (∀ r, (predictIntervention st intervention targetEffect).1 = Some r →
     concept_id (prediction r) = targetEffect
     ∧ ∃ key, key ∈ map_keys intervention ∧ r ∈ predictEffect st key 3)
  ∧ ((predictIntervention st intervention targetEffect).1 = None
     ↔ ∀ key r, key ∈ map_keys intervention → r ∈ predictEffect st key 3 →
         concept_id (prediction r) ≠ targetEffect).
Proof.
  rewrite predictIntervention_search. split.
  - intros r. apply search_target_Some.
  - apply search_target_None.
Qed.

Lemma search_target_same_keys {V1 V2} st1 st2 (i1 : JSMap V1) (i2 : JSMap V2)
  target :
  links st1 = links st2 → linksByCause st1 = linksByCause st2 →
  map_keys i1 = map_keys i2 →
  search_target st1 i1 target = search_target st2 i2 target.
Proof.
  intros Hl Hc Hk. rewrite (search_target_frame st1 st2) by done.
  by rewrite !search_target_keys, Hk.
Qed.

Lemma counterfactual_outcomes {V} st (actual cf : JSMap V) target :
  map_keys actual = map_keys cf →
  (counterfactual st actual cf target).1.1.1
  = (counterfactual st actual cf target).1.1.2
  ∧ (counterfactual st actual cf target).1.2
    = match (counterfactual st actual cf target).1.1.1 with
      | Some r => Math_abs (confidence r - confidence r)%num
      | None => n0
      end.
Proof.
  intros Hk. unfold counterfactual.
  pose proof (predictIntervention_search st actual target) as Ha.
  destruct (predictIntervention_frame st actual target) as (Hl & Hc & _).
  destruct (predictIntervention st actual target) as [a st1]. simpl in *.
  pose proof (predictIntervention_search st1 cf target) as Hcf.
  destruct (predictIntervention st1 cf target) as [c st2]. simpl in *.
  assert (Hac : c = a).
  { rewrite Ha, Hcf. apply search_target_same_keys; [done | done | by symmetry]. }
  subst c. split; [done |]. rewrite Hac. by destruct a.
Qed.

End InterventionExtras.

(** X9: [counterfactual] compares two runs of a search that does not
    read the forced values: for two assignments with the same keys in
    the same order the two outcomes are the same, in every state and for
    every kind of number, and in exact arithmetic the difference is 0. *)
Theorem counterfactual_same_keys :
  (∀ (num : Type) (HN : JSNumber num) (V : Type) (st : CausalReasoning num)
     (actual cf : JSMap V) (targetEffect : EntityId),
     map_keys actual = map_keys cf →
     (counterfactual st actual cf targetEffect).1.1.1
     = (counterfactual st actual cf targetEffect).1.1.2)
  ∧ (∀ (V : Type) (st : CausalReasoning Q) (actual cf : JSMap V)
       (targetEffect : EntityId),
       map_keys actual = map_keys cf →
       ((counterfactual st actual cf targetEffect).1.2 == 0)%Q).
Proof.
  split.
  - intros num HN V st actual cf target Hk.
    by apply counterfactual_outcomes.
  - intros V st actual cf target Hk.
    destruct (counterfactual_outcomes st actual cf target Hk) as [_ ->].
    destruct ((counterfactual st actual cf target).1.1.1) as [r |]; [| done].
    assert (Hz : (confidence r - confidence r == 0)%Q) by ring.
    change (Qabs (confidence r - confidence r) == 0)%Q.
    by rewrite (Qabs_wd _ _ Hz).
Qed.

(** X9 at the chain: rain forced to [true] against rain forced to
    [false]. *)
Lemma counterfactual_same_keys_witness :
  let st := (chain 0.9 0.8 0.7 0.5 0.5 0.5)%float in
  (counterfactual st [("A", true)] [("A", false)] "D").1.1.1
  = (counterfactual st [("A", true)] [("A", false)] "D").1.1.2.
Proof.
  intros st.
  apply (proj1 counterfactual_same_keys float _ bool st). reflexivity.
Defined.

(** ** Order of the results *)

Section SortedQ.
Context {A : Type} (key : A → Q).

Lemma sort_insert_sorted (x : A) (sorted : list A) :
  StronglySorted (descending key) sorted →
  StronglySorted (descending key)
    (sort_insert (fun a b => (key b - key a)%Q) x sorted).
Proof.
  induction 1 as [| y rest Hrest IH Hy]; simpl.
  - by repeat constructor.
  - unfold Qgt_bool. destruct (Qle_bool (key x - key y) 0) eqn:Hle; simpl.
    + apply Qle_bool_iff in Hle. constructor; [done |].
      assert (Hperm := sort_insert_perm (fun a b => (key b - key a)%Q) x rest).
      apply Forall_forall. intros z Hz.
      rewrite Hperm in Hz. apply elem_of_cons in Hz as [-> | Hz].
      * unfold descending. lra.
      * rewrite Forall_forall in Hy. by apply Hy.
    + assert (Hgt : (key y < key x)%Q).
      { apply Qnot_le_lt. intros Hc. apply Qle_bool_iff in Hc as Hc'.
        assert (Qle_bool (key x - key y) 0 = true); [| congruence].
        apply Qle_bool_iff. lra. }
      constructor; [by constructor |].
      constructor; [unfold descending; lra |].
      eapply Forall_impl; [exact Hy |]. unfold descending. intros z Hz. lra.
Qed.

Lemma Array_sort_sorted (l : list A) :
  StronglySorted (descending key) (Array_sort (fun a b => (key b - key a)%Q) l).
Proof.
  unfold Array_sort.
  assert (Hgen : ∀ acc, StronglySorted (descending key) acc →
    StronglySorted (descending key)
      (fold_left (fun sorted x =>
         sort_insert (fun a b => (key b - key a)%Q) x sorted) l acc)).
  { induction l as [| x l IH]; intros acc Hacc; simpl; [done |].
    by apply IH, sort_insert_sorted. }
  apply Hgen. constructor.
Qed.

End SortedQ.

(** X10: in exact arithmetic the results of [predictEffect] and of
    [explainEffect] come in descending order of confidence: no result
    has a confidence above that of a result before it. *)
Theorem traversal_results_descending (st : CausalReasoning Q)
  (node : EntityId) (maxSteps : nat) :
  StronglySorted (fun a b => (confidence b <= confidence a)%Q)
    (predictEffect st node maxSteps)
  ∧ StronglySorted (fun a b => (confidence b <= confidence a)%Q)
      (explainEffect st node maxSteps).
Proof.
  split; apply (Array_sort_sorted confidence).
Qed.

(** ** Exact restoration *)

Section ExactRestore.
Context {num : Type} `{JSNumber num}.
Implicit Types (st : CausalReasoning num) (m : gmap string (list string))
  (D : list (CausalLink num)).








Lemma add_all_fresh (ids acc : list string) :
  NoDup (acc ++ ids) →
  fold_left (fun s id => set_add id s) ids acc = acc ++ ids.
Proof.
  revert acc. induction ids as [| id ids IH]; intros acc Hnd; simpl.
  - by rewrite app_nil_r.
  - assert (Hfresh : set_has acc id = false).
    { apply set_has_false. intros Hin.
      apply NoDup_app in Hnd as (_ & Hdisj & _). apply (Hdisj _ Hin). by left. }
    unfold set_add at 2. rewrite Hfresh.
    rewrite IH; rewrite <- app_assoc; done.
Qed.




Lemma if_bool_decide_ext (P Q : Prop) `{!Decision P, !Decision Q} {A}
  (a b : A) :
  (P ↔ Q) →
  (if bool_decide P then a else b) = (if bool_decide Q then a else b).
Proof. intros HPQ. by rewrite (bool_decide_ext P Q HPQ). Qed.





End ExactRestore.


(** ** The belief update in exact arithmetic *)

Section BeliefQ.
Local Open Scope Q_scope.

Lemma Qgt_bool_true (a b : Q) : Qgt_bool a b = true ↔ b < a.
Proof.
  unfold Qgt_bool. rewrite negb_true_iff.
  destruct (Qle_bool a b) eqn:Hle.
  - apply Qle_bool_iff in Hle. split; [done | lra].
  - split; [| done]. intros _. apply Qnot_le_lt. intros Hab.
    apply Qle_bool_iff in Hab. congruence.
Qed.

Lemma Qgt_bool_false (a b : Q) : Qgt_bool a b = false ↔ a <= b.
Proof.
  unfold Qgt_bool. rewrite negb_false_iff. apply Qle_bool_iff.
Qed.

Lemma Q_min_le (a b : Q) : Q_min a b <= a ∧ Q_min a b <= b.
Proof.
  unfold Q_min. destruct (Qgt_bool a b) eqn:Hgt.
  - apply Qgt_bool_true in Hgt. lra.
  - apply Qgt_bool_false in Hgt. lra.
Qed.

Lemma Q_min_ge (a b c : Q) : c <= a → c <= b → c <= Q_min a b.
Proof. unfold Q_min. by destruct (Qgt_bool a b). Qed.

(** X12: evidence that is as likely if the hypothesis is false as if
    it is true leaves the belief where it was, whatever the numbers. *)
Theorem bayesianUpdate_uninformative (p l : Q) :
  bayesianUpdate p l l == p.
Proof.
  unfold bayesianUpdate. cbn.
  destruct (Qgt_bool (l * p + l * (1 - p)) 0) eqn:Hgt; [| done].
  apply Qgt_bool_true in Hgt. field. lra.
Qed.

(** The share of [x] in [x + y]. *)
Lemma share_bounds (x y : Q) :
  0 <= x → 0 <= y → 0 < x + y → 0 <= x / (x + y) <= 1.
Proof.
  intros Hx Hy Hpos. split.
  - apply Qle_shift_div_l; [done | lra].
  - apply Qle_shift_div_r; [done | lra].
Qed.

(** X13: for a prior in [0, 1] and likelihoods that are not negative,
    the posterior is in [0, 1]. *)
Theorem bayesianUpdate_range (p lt lf : Q) :
  0 <= p <= 1 → 0 <= lt → 0 <= lf →
  0 <= bayesianUpdate p lt lf <= 1.
Proof.
  intros Hp Hlt Hlf. unfold bayesianUpdate. cbn.
  destruct (Qgt_bool (lt * p + lf * (1 - p)) 0) eqn:Hgt; [| done].
  apply Qgt_bool_true in Hgt. apply share_bounds; [nra | nra | done].
Qed.

(** X13 at the prior 1/2 and the likelihoods 9/10 and 1/10. *)
Lemma bayesianUpdate_range_witness :
  Qle_bool 0 (bayesianUpdate (1 # 2) (9 # 10) (1 # 10)) = true
  ∧ Qle_bool (bayesianUpdate (1 # 2) (9 # 10) (1 # 10)) 1 = true.
Proof.
  destruct (bayesianUpdate_range (1 # 2) (9 # 10) (1 # 10)) as [H0 H1];
    [split; by apply Qle_bool_iff | by apply Qle_bool_iff
    | by apply Qle_bool_iff |].
  split; by apply Qle_bool_iff.
Defined.

(** X14: for a prior in [0, 1], evidence more likely under the
    hypothesis than against it does not lower the belief, and evidence
    less likely under it does not raise it. *)
Theorem bayesianUpdate_direction (p lt lf : Q) :
  0 <= p <= 1 →
  (0 <= lf <= lt → p <= bayesianUpdate p lt lf)
  ∧ (0 <= lt <= lf → bayesianUpdate p lt lf <= p).
Proof.
  intros Hp. unfold bayesianUpdate. cbn.
  destruct (Qgt_bool (lt * p + lf * (1 - p)) 0) eqn:Hgt;
    [| split; intros _; lra].
  apply Qgt_bool_true in Hgt. split; intros Hl.
  - apply Qle_shift_div_l; [done |].
    assert (0 <= (lt - lf) * (p * (1 - p))) by (apply Qmult_le_0_compat; nra).
    nra.
  - apply Qle_shift_div_r; [done |].
    assert (0 <= (lf - lt) * (p * (1 - p))) by (apply Qmult_le_0_compat; nra).
    nra.
Qed.

(** X14 at the prior 1/2 and the likelihoods 9/10 and 1/10. *)
Lemma bayesianUpdate_direction_witness :
  Qle_bool (1 # 2) (bayesianUpdate (1 # 2) (9 # 10) (1 # 10)) = true.
Proof.
  apply Qle_bool_iff.
  apply (bayesianUpdate_direction (1 # 2) (9 # 10) (1 # 10)).
  - split; by apply Qle_bool_iff.
  - split; by apply Qle_bool_iff.
Defined.

Lemma evidence_term_nonneg (r m : nat) :
  0 <= inject_Z (Z.of_nat r) / inject_Z (Z.of_nat m) * (1 # 10).
Proof.
  apply Qmult_le_0_compat; [| done]. apply Qmult_le_0_compat.
  - change 0%Q with (inject_Z 0). rewrite <- Zle_Qle. lia.
  - apply Qinv_le_0_compat. change 0%Q with (inject_Z 0).
    rewrite <- Zle_Qle. lia.
Qed.

Lemma addEvidence_range (st : CausalReasoning Q) (id : EntityId)
  (e : Evidence Q) (l : CausalLink Q) :
  getLink st id = Some l → 0 <= strength l →
  ∃ l', getLink (addEvidence st id e) id = Some l'
        ∧ 0 <= strength l' <= 1.
Proof.
  unfold getLink, addEvidence. intros Hl Hs. rewrite Hl.
  eexists. split; [cbn -[Nat.max]; by rewrite lookup_insert_eq |].
  cbn -[Nat.max].
  set (r := length _). set (m := Nat.max 5 _).
  pose proof (evidence_term_nonneg r m) as Hx. split.
  - apply Q_min_ge; lra.
  - apply Q_min_le.
Qed.

(** X15: in exact arithmetic [updateModel] keeps a strength in [0, 1]:
    for a stored link whose strength is not negative and evidence whose
    reliability is in [0, 1], the strength afterwards is in [0, 1],
    whichever hypothesis the evidence names. *)
Theorem updateModel_keeps_range (st : CausalReasoning Q) (id : EntityId)
  (e : Evidence Q) (l : CausalLink Q) :
  getLink st id = Some l → 0 <= strength l → 0 <= reliability e <= 1 →
  ∃ l', getLink (updateModel st id e) id = Some l'
        ∧ 0 <= strength l' <= 1.
Proof.
  intros Hl Hs Hr.
  destruct (addEvidence_range st id e l Hl Hs) as (l1 & Hl1 & Hs1).
  unfold updateModel. unfold getLink in Hl, Hl1. rewrite Hl, Hl1.
  destruct (is_id (supportsHypothesis e) id);
    [| destruct (is_id (contradictsHypothesis e) id)].
  - eexists. unfold getLink. simpl. rewrite lookup_insert_eq. split; [done |].
    simpl. unfold bayesianUpdate. cbn.
    destruct (Qgt_bool _ 0) eqn:Hgt; [| done].
    apply Qgt_bool_true in Hgt. apply share_bounds; [nra | nra | done].
  - eexists. unfold getLink. simpl. rewrite lookup_insert_eq. split; [done |].
    simpl. unfold bayesianUpdate. cbn.
    destruct (Qgt_bool _ 0) eqn:Hgt; [| done].
    apply Qgt_bool_true in Hgt. apply share_bounds; [nra | nra | done].
  - by exists l1.
Qed.

End BeliefQ.

(** X15 at a link of strength 1/2 and supporting evidence of
    reliability 9/10. *)
Lemma updateModel_keeps_range_witness :
  let link := (one_link (1 # 2)%Q).1 in
  let st := (one_link (1 # 2)%Q).2 in
  let id := link_id link in
  let e := evidence_of (9 # 10)%Q (Some id) None in
  ∃ l', getLink (updateModel st id e) id = Some l'
        ∧ (0 <= strength l' <= 1)%Q.
Proof.
  intros link st id e. apply (updateModel_keeps_range st id e link).
  - by vm_compute.
  - by apply Qle_bool_iff.
  - split; by apply Qle_bool_iff.
Defined.

(** ** [clamp01] and [validateProbability] on binary64 *)

Section UtilsFloat.
Import SpecFloat.

Lemma leb_not_ltb_eqb (a b : float) :
  PrimFloat.leb a b = true → PrimFloat.ltb a b = false →
  PrimFloat.eqb a b = true.
Proof.
  rewrite FloatAxioms.ltb_spec, FloatAxioms.leb_spec, FloatAxioms.eqb_spec.
  unfold SFltb, SFleb, SFeqb. by destruct (SFcompare _ _) as [[] |].
Qed.

Lemma float_eqb_refl (a : float) :
  PrimFloat.is_nan a = false → PrimFloat.eqb a a = true.
Proof.
  rewrite is_nan_false, FloatAxioms.eqb_spec. unfold SFeqb.
  intros Ha. by rewrite SFcompare_refl.
Qed.

Lemma float_eqb_sym (a b : float) :
  PrimFloat.eqb a b = true → PrimFloat.eqb b a = true.
Proof.
  rewrite !FloatAxioms.eqb_spec. unfold SFeqb.
  destruct (SFcompare (Prim2SF a) (Prim2SF b)) as [c |] eqn:Hc; [| done].
  rewrite (SFcompare_antisym _ _ _ Hc). by destruct c.
Qed.

(** [Math.min(1, v)] of a number [v] is a number, at most 1, and is
    [v] or 1. *)
Lemma float_min_1 (v : float) :
  PrimFloat.is_nan v = false →
  PrimFloat.leb (float_min 1 v) 1 = true
  ∧ (float_min 1 v = v ∨ float_min 1 v = 1%float).
Proof.
  intros Hv. unfold float_min. rewrite Hv.
  change (PrimFloat.is_nan 1) with false. simpl.
  destruct (PrimFloat.ltb v 1) eqn:Hlt; [split; [by apply ltb_leb | by left] |].
  destruct (PrimFloat.ltb 1 v) eqn:Hgt; [split; [done | by right] |].
  destruct (PrimFloat.get_sign v); [| split; [done | by right]].
  split; [| by left]. by apply not_ltb_leb.
Qed.

(** [Math.max(0, m)] of a number [m] at most 1 is in [0, 1]. *)
Lemma float_max_0 (m : float) :
  PrimFloat.leb m 1 = true →
  PrimFloat.leb 0 (float_max 0 m) = true
  ∧ PrimFloat.leb (float_max 0 m) 1 = true.
Proof.
  intros Hm. destruct (leb_not_nan _ _ Hm) as [Hnan _].
  unfold float_max. rewrite Hnan.
  change (PrimFloat.is_nan 0) with false. simpl.
  destruct (PrimFloat.ltb 0 m) eqn:Hlt; [split; [by apply ltb_leb | done] |].
  destruct (PrimFloat.ltb m 0); by vm_compute.
Qed.

(** [clamp01] of a number is in [0, 1]; [clamp01(NaN)] is [NaN]. *)
Lemma clamp01_range (v : float) :
  if PrimFloat.is_nan v
  then PrimFloat.is_nan (clamp01 v) = true
  else PrimFloat.leb 0 (clamp01 v) = true
       ∧ PrimFloat.leb (clamp01 v) 1 = true.
Proof.
  unfold clamp01. cbn.
  destruct (PrimFloat.is_nan v) eqn:Hv.
  - unfold float_min. rewrite Hv, orb_true_r. by vm_compute.
  - apply float_max_0. by apply float_min_1.
Qed.

Lemma clamp01_fixes (v : float) :
  PrimFloat.leb 0 v = true → PrimFloat.leb v 1 = true →
  PrimFloat.eqb (clamp01 v) v = true.
Proof.
  intros H0 H1. destruct (leb_not_nan _ _ H1) as [Hv _].
  unfold clamp01. cbn.
  assert (Hm : float_min 1 v = v
               ∨ (float_min 1 v = 1%float ∧ PrimFloat.eqb 1 v = true)).
  { unfold float_min. rewrite Hv. change (PrimFloat.is_nan 1) with false.
    simpl. destruct (PrimFloat.ltb v 1) eqn:Hlt; [by left |].
    rewrite (leb_not_ltb _ _ H1).
    destruct (PrimFloat.get_sign v); [by left |]. right. split; [done |].
    apply float_eqb_sym. by apply leb_not_ltb_eqb. }
  destruct Hm as [-> | [-> H1v]].
  - unfold float_max. rewrite Hv. change (PrimFloat.is_nan 0) with false.
    simpl. destruct (PrimFloat.ltb 0 v) eqn:Hlt; [by apply float_eqb_refl |].
    rewrite (leb_not_ltb _ _ H0).
    change (PrimFloat.get_sign 0) with false. simpl.
    by apply leb_not_ltb_eqb.
  - change (float_max 0 1) with 1%float. done.
Qed.

(** X16: [clamp01] of a number is in [0, 1], and [clamp01(NaN)] is
    [NaN]; on a number in [0, 1] it changes nothing but the sign of a
    zero: the result equals the argument as numbers compare ([-0]
    becomes [0]). *)
Theorem clamp01_spec (v : float) :
  (if PrimFloat.is_nan v
   then PrimFloat.is_nan (clamp01 v) = true
   else PrimFloat.leb 0 (clamp01 v) = true
        ∧ PrimFloat.leb (clamp01 v) 1 = true)
  ∧ (PrimFloat.leb 0 v = true → PrimFloat.leb v 1 = true →
     PrimFloat.eqb (clamp01 v) v = true).
Proof. split; [apply clamp01_range | apply clamp01_fixes]. Qed.

Lemma validateProbability_accepts (v : float) (name : string) :
  validateProbability v name = Returns
  ↔ PrimFloat.leb 0 v = true ∧ PrimFloat.leb v 1 = true.
Proof.
  unfold validateProbability. cbn. split.
  - destruct (PrimFloat.ltb v 0) eqn:Hlt; simpl; [done |].
    destruct (PrimFloat.ltb 1 v) eqn:Hgt; simpl; [done |].
    destruct (PrimFloat.is_nan v) eqn:Hv; [done |]. intros _.
    split; by apply not_ltb_leb.
  - intros [H0 H1]. rewrite (leb_not_ltb _ _ H0), (leb_not_ltb _ _ H1).
    by destruct (leb_not_nan _ _ H1) as [-> _].
Qed.

(** X17: [validateProbability] returns exactly for the numbers in
    [0, 1] and throws for every other value, [NaN] and the infinities
    included; what [clamp01] returns passes it, unless the argument of
    [clamp01] was [NaN]. *)
Theorem validateProbability_spec (v : float) (name : string) :
  (validateProbability v name = Returns
   ↔ PrimFloat.leb 0 v = true ∧ PrimFloat.leb v 1 = true)
  ∧ validateProbability (clamp01 v) name
    = (if PrimFloat.is_nan v then Throws else Returns).
Proof.
  split; [apply validateProbability_accepts |].
  pose proof (clamp01_range v) as Hr.
  destruct (PrimFloat.is_nan v).
  - unfold validateProbability. cbn in *. rewrite Hr.
    by rewrite orb_true_r.
  - by apply validateProbability_accepts.
Qed.

(** X18: after [addEvidence] the strength of the link is at most 1,
    or is [NaN]: the cap holds in binary64 whatever the strength was
    before. *)
Theorem addEvidence_capped (st : CausalReasoning float) (id : EntityId)
  (e : Evidence float) (l : CausalLink float) :
  getLink st id = Some l →
  ∃ l', getLink (addEvidence st id e) id = Some l'
        ∧ (PrimFloat.leb (strength l') 1 = true
           ∨ PrimFloat.is_nan (strength l') = true).
Proof.
  unfold getLink, addEvidence. intros Hl. rewrite Hl.
  eexists. split; [cbn -[Nat.max]; by rewrite lookup_insert_eq |].
  cbn -[Nat.max float_min]. set (x := PrimFloat.add _ _).
  destruct (PrimFloat.is_nan x) eqn:Hx.
  - right. unfold float_min. rewrite Hx, orb_true_r. by vm_compute.
  - left. by apply float_min_1.
Qed.

End UtilsFloat.

(** X18 at a link created with strength 1.5. *)
Lemma addEvidence_capped_witness :
  let link := (one_link 1.5%float).1 in
  let st := (one_link 1.5%float).2 in
  let e := evidence_of 0.9%float None None in
  ∃ l', getLink (addEvidence st (link_id link) e) (link_id link) = Some l'
        ∧ (PrimFloat.leb (strength l') 1 = true
           ∨ PrimFloat.is_nan (strength l') = true).
Proof.
  intros link st e. apply (addEvidence_capped st (link_id link) e link).
  by vm_compute.
Defined.



(** ** [combineConfidence] in exact arithmetic *)

Section CombineQ.
Local Open Scope Q_scope.

Local Abbreviation complement := (fold_left (fun acc c : Q => acc * (1 - c))).

Lemma complement_scale (l : list Q) (a : Q) :
  complement l a == a * complement l 1.
Proof.
  revert a. induction l as [| c l IH]; intros a; simpl; [ring |].
  rewrite (IH (a * (1 - c))), (IH (1 * (1 - c))). ring.
Qed.

Lemma complement_range (l : list Q) (a : Q) :
  Forall (fun c => 0 <= c <= 1) l → 0 <= a → 0 <= complement l a <= a.
Proof.
  intros Hl. revert a. induction Hl as [| c l Hc _ IH]; intros a Ha; simpl;
    [lra |].
  assert (Hac : 0 <= a * (1 - c) <= a) by nra.
  destruct (IH (a * (1 - c))) as [H0 H1]; [lra |]. lra.
Qed.

Lemma complement_below (l : list Q) (a c : Q) :
  Forall (fun c => 0 <= c <= 1) l → c ∈ l → 0 <= a <= 1 →
  complement l a <= 1 - c.
Proof.
  intros Hl. revert a. induction Hl as [| c' l Hc' Hl IH]; intros a Hin Ha.
  - by apply elem_of_nil in Hin.
  - simpl. assert (Hac : 0 <= a * (1 - c') <= 1 - c') by nra.
    apply elem_of_cons in Hin as [-> | Hin].
    + destruct (complement_range l (a * (1 - c')) Hl) as [_ H1]; lra.
    + apply IH; [done |]. nra.
Qed.

(** X19: the combination of confidences in [0, 1] is in [0, 1] and is
    not below any of them: further confidences never lower the result. *)
Theorem combineConfidence_bounds (confidences : list Q) :
  Forall (fun c => 0 <= c <= 1) confidences →
  0 <= combineConfidence confidences <= 1
  ∧ ∀ c, c ∈ confidences → c <= combineConfidence confidences.
Proof.
  intros Hl. destruct confidences as [| c1 [| c2 rest]].
  - split; [done |]. intros c Hc. by apply elem_of_nil in Hc.
  - apply Forall_inv in Hl. split; [done |].
    intros c ->%list_elem_of_singleton. simpl. lra.
  - unfold combineConfidence. cbn [n0 n1 nsub nmul Q_number].
    destruct (complement_range _ 1 Hl) as [H0 H1]; [done |].
    split; [lra |]. intros c Hc.
    pose proof (complement_below _ 1 c Hl Hc). lra.
Qed.

(** X19 at the confidences 1/2, 8/10 and 1/10. *)
Lemma combineConfidence_bounds_witness :
  Qle_bool (8 # 10) (combineConfidence [(1 # 2); (8 # 10); (1 # 10)]%Q) = true.
Proof.
  apply Qle_bool_iff.
  apply (combineConfidence_bounds [(1 # 2); (8 # 10); (1 # 10)]).
  - repeat constructor; by apply Qle_bool_iff.
  - right. by left.
Defined.

Lemma combineConfidence_noisy_or (l : list Q) :
  combineConfidence l == 1 - complement l 1.
Proof.
  destruct l as [| c1 [| c2 rest]]; simpl; [done | ring | done].
Qed.

(** X20: the combination does not depend on the order of the
    confidences; in particular the results for no and for one confidence
    are those of the general formula. *)
Theorem combineConfidence_order (l1 l2 : list Q) :
  l1 ≡ₚ l2 → combineConfidence l1 == combineConfidence l2.
Proof.
  intros Hp. rewrite !combineConfidence_noisy_or.
  assert (Hc : complement l1 1 == complement l2 1); [| by rewrite Hc].
  induction Hp as [| x l l' _ IH | x y l | l l' l'' _ IH1 _ IH2]; simpl.
  - done.
  - rewrite (complement_scale l), (complement_scale l'), IH. done.
  - rewrite (complement_scale l (1 * (1 - y) * (1 - x))),
      (complement_scale l (1 * (1 - x) * (1 - y))). ring.
  - by rewrite IH1.
Qed.

(** X20 at the confidences 1/2, 8/10 and 1/10, and a rotation of them. *)
Lemma combineConfidence_order_witness :
  Qeq_bool (combineConfidence [(1 # 2); (8 # 10); (1 # 10)]%Q)
    (combineConfidence [(1 # 10); (1 # 2); (8 # 10)]%Q) = true.
Proof.
  apply Qeq_bool_iff. apply combineConfidence_order. symmetry.
  apply (Permutation_cons_append [(1 # 2); (8 # 10)]%Q (1 # 10)%Q).
Defined.

End CombineQ.

(** ** [jaccardSimilarity] in exact arithmetic *)

Section JaccardQ.
Local Open Scope Q_scope.

Lemma set_union_spec (l acc : list string) :
  NoDup acc →
  NoDup (fold_left (fun u x => set_add x u) l acc)
  ∧ ∀ x, x ∈ fold_left (fun u x => set_add x u) l acc ↔ x ∈ acc ∨ x ∈ l.
Proof.
  revert acc. induction l as [| y l IH]; intros acc Hacc; simpl.
  - split; [done |]. intros x. rewrite elem_of_nil. tauto.
  - destruct (IH (set_add y acc)) as [Hnd Hin]; [by apply NoDup_set_add |].
    split; [done |]. intros x.
    rewrite Hin, elem_of_set_add, elem_of_cons. tauto.
Qed.

Lemma elem_of_intersection (s1 s2 : list string) x :
  x ∈ List.filter (set_has s2) s1 ↔ x ∈ s1 ∧ x ∈ s2.
Proof.
  rewrite !list_elem_of_In, filter_In, <- !list_elem_of_In.
  by rewrite set_has_true.
Qed.

Lemma NoDup_intersection (s1 s2 : list string) :
  NoDup s1 → NoDup (List.filter (set_has s2) s1).
Proof. rewrite !NoDup_ListNoDup. apply List.NoDup_filter. Qed.

Lemma length_le_of_subset (l k : list string) :
  NoDup l → (∀ x, x ∈ l → x ∈ k) → (length l <= length k)%nat.
Proof.
  intros Hnd Hsub. apply submseteq_length, NoDup_submseteq; done.
Qed.

Lemma Q_of_nat_le (a b : nat) :
  (a <= b)%nat → inject_Z (Z.of_nat a) <= inject_Z (Z.of_nat b).
Proof. intros Hab. rewrite <- Zle_Qle. lia. Qed.

Lemma Q_of_nat_pos (a : nat) : (0 < a)%nat → 0 < inject_Z (Z.of_nat a).
Proof.
  intros Ha. change 0 with (inject_Z 0). rewrite <- Zlt_Qlt. lia.
Qed.

Lemma jaccardSimilarity_bounds (set1 set2 : list string) :
  NoDup set1 → 0 <= jaccardSimilarity (num := Q) set1 set2 <= 1.
Proof.
  intros Hnd. unfold jaccardSimilarity. cbn [n0 ndiv of_length Q_number].
  destruct (set_union_spec (set1 ++ set2) [] (NoDup_nil_2 (A := string)))
    as [Hu Hin].
  set (u := fold_left _ (set1 ++ set2) []) in *.
  destruct (Nat.ltb_spec 0 (length u)) as [Hpos | _]; [| done].
  apply Q_of_nat_pos in Hpos as Hq.
  assert (Hle : (length (List.filter (set_has set2) set1) <= length u)%nat).
  { apply length_le_of_subset; [by apply NoDup_intersection |].
    intros x [Hx _]%elem_of_intersection. apply Hin. right.
    apply elem_of_app. by left. }
  apply Q_of_nat_le in Hle. split.
  - apply Qle_shift_div_l; [done |].
    rewrite Qmult_0_l. change 0 with (inject_Z 0). rewrite <- Zle_Qle. lia.
  - apply Qle_shift_div_r; [done |]. lra.
Qed.

(** X21: the similarity of two sets is in [0, 1]; it is 1 for a set
    that is not empty and itself. *)
Theorem jaccardSimilarity_range (set1 set2 : list string) :
  NoDup set1 →
  0 <= jaccardSimilarity (num := Q) set1 set2 <= 1
  ∧ (set1 ≠ [] → jaccardSimilarity (num := Q) set1 set1 == 1).
Proof.
  intros Hnd. split; [by apply jaccardSimilarity_bounds |].
  unfold jaccardSimilarity. cbn [n0 ndiv of_length Q_number].
  intros Hne.
  assert (Hi : List.filter (set_has set1) set1 = set1).
  { apply forallb_filter_id. apply forallb_forall. intros x Hx.
    apply set_has_true. by apply list_elem_of_In. }
  assert (Hu : fold_left (fun u x => set_add x u) (set1 ++ set1) [] = set1).
  { rewrite fold_left_app, (add_all_fresh set1 []) by done. simpl.
    assert (Hgen : ∀ l, (∀ x, x ∈ l → x ∈ set1) →
      fold_left (fun u x => set_add x u) l set1 = set1).
    { induction l as [| y l IH]; intros Hl; simpl; [done |].
      unfold set_add at 2.
      rewrite (proj2 (set_has_true set1 y)) by (apply Hl; by left).
      apply IH. intros x Hx. apply Hl. by right. }
    by apply Hgen. }
  rewrite Hi, Hu.
  destruct (Nat.ltb_spec 0 (length set1)) as [Hpos | Hz].
  - apply Q_of_nat_pos in Hpos. field. lra.
  - destruct set1; [done | simpl in Hz; lia].
Qed.

(** X21 at the sets {a, b} and {b, c}. *)
Lemma jaccardSimilarity_range_witness :
  Qle_bool (jaccardSimilarity (num := Q) ["a"; "b"] ["b"; "c"]) 1 = true.
Proof.
  apply Qle_bool_iff. apply (jaccardSimilarity_range ["a"; "b"] ["b"; "c"]).
  by apply (bool_decide_unpack _).
Defined.

(** X22: the similarity is symmetric. *)
Theorem jaccardSimilarity_sym (set1 set2 : list string) :
  NoDup set1 → NoDup set2 →
  jaccardSimilarity (num := Q) set1 set2
  == jaccardSimilarity (num := Q) set2 set1.
Proof.
  intros Hnd1 Hnd2. unfold jaccardSimilarity. cbn [n0 ndiv of_length Q_number].
  destruct (set_union_spec (set1 ++ set2) [] (NoDup_nil_2 (A := string))) as [Hu1 Hin1].
  destruct (set_union_spec (set2 ++ set1) [] (NoDup_nil_2 (A := string))) as [Hu2 Hin2].
  assert (Hu : length (fold_left (fun u x => set_add x u) (set1 ++ set2) [])
             = length (fold_left (fun u x => set_add x u) (set2 ++ set1) [])).
  { apply Permutation_length, NoDup_Permutation; [done | done |].
    intros x. rewrite Hin1, Hin2, !elem_of_app. tauto. }
  assert (Hi : length (List.filter (set_has set2) set1)
             = length (List.filter (set_has set1) set2)).
  { apply Permutation_length, NoDup_Permutation;
      [by apply NoDup_intersection | by apply NoDup_intersection |].
    intros x. rewrite !elem_of_intersection. tauto. }
  by rewrite Hu, Hi.
Qed.

(** X22 at the sets {a, b} and {b, c}. *)
Lemma jaccardSimilarity_sym_witness :
  Qeq_bool (jaccardSimilarity (num := Q) ["a"; "b"] ["b"; "c"])
    (jaccardSimilarity (num := Q) ["b"; "c"] ["a"; "b"]) = true.
Proof.
  apply Qeq_bool_iff. apply jaccardSimilarity_sym;
    by apply (bool_decide_unpack _).
Defined.

End JaccardQ.

(** ** [groupBy] and [topN] *)

Section Collections.
Context {T : Type}.

Lemma map_get_map_set {V} (m : list (string * V)) (k k' : string) (v : V) :
  map_get (map_set k v m) k'
  = if String.eqb k' k then Some v else map_get m k'.
Proof.
  induction m as [| [k0 v0] m IH]; simpl.
  - by destruct (String.eqb k' k).
  - destruct (String.eqb_spec k k0) as [-> | Hne]; simpl.
    + by destruct (String.eqb k' k0).
    + rewrite IH. destruct (String.eqb_spec k' k0) as [-> | Hne']; [| done].
      by destruct (String.eqb_spec k0 k).
Qed.

Lemma map_keys_map_set {V} (m : list (string * V)) (k : string) (v : V) :
  map_keys (map_set k v m)
  = if bool_decide (k ∈ map_keys m) then map_keys m else map_keys m ++ [k].
Proof.
  induction m as [| [k0 v0] m IH]; simpl; [done |].
  destruct (String.eqb_spec k k0) as [-> | Hne]; simpl.
  - by rewrite bool_decide_eq_true_2 by by left.
  - rewrite IH. unfold map_keys. simpl.
    rewrite (if_bool_decide_ext (k ∈ k0 :: List.map fst m)
               (k ∈ List.map fst m)).
    + by destruct (bool_decide _).
    + rewrite elem_of_cons. tauto.
Qed.

Lemma is_map_map_set {V} (m : list (string * V)) (k : string) (v : V) :
  is_map m → is_map (map_set k v m).
Proof.
  unfold is_map. rewrite map_keys_map_set. intros Hnd.
  case_bool_decide as Hk; [done |].
  apply NoDup_app. split; [done |]. split; [| apply NoDup_singleton].
  by intros x Hx ->%list_elem_of_singleton.
Qed.

Lemma groupBy_fold (keyFn : T → string) (k : string) (items : list T) :
  ∀ groups : list (string * list T),
    map_get
      (fold_left (fun groups item =>
         map_set (keyFn item)
           (default [] (map_get groups (keyFn item)) ++ [item]) groups)
         items groups) k
    = match List.filter (fun item => String.eqb (keyFn item) k) items with
      | [] => map_get groups k
      | g => Some (default [] (map_get groups k) ++ g)
      end.
Proof.
  induction items as [| item items IH]; intros groups; simpl; [done |].
  rewrite IH, map_get_map_set. rewrite (String.eqb_sym k).
  destruct (String.eqb_spec (keyFn item) k) as [-> | Hne]; simpl.
  - destruct (List.filter _ items); simpl; [done |].
    by rewrite <- app_assoc.
  - done.
Qed.

(** X23: [groupBy] returns a map that holds, under each key that
    [keyFn] gives for some item, exactly the items with that key, in
    their order in [items], and that has no other key. *)
Theorem groupBy_lookup (items : list T) (keyFn : T → string) (k : string) :
  map_get (groupBy items keyFn) k
  = match List.filter (fun item => String.eqb (keyFn item) k) items with
    | [] => None
    | g => Some g
    end
  ∧ is_map (groupBy items keyFn).
Proof.
  unfold groupBy. split.
  - rewrite groupBy_fold. simpl. by destruct (List.filter _ items).
  - assert (Hgen : ∀ groups : list (string * list T), is_map groups →
      is_map (fold_left (fun groups item =>
         map_set (keyFn item)
           (default [] (map_get groups (keyFn item)) ++ [item]) groups)
         items groups)).
    { induction items as [| item items IH]; intros groups Hg; simpl; [done |].
      by apply IH, is_map_map_set. }
    apply Hgen. apply NoDup_nil_2.
Qed.

Lemma StronglySorted_fmap {A B} (R : A → A → Prop) (R' : B → B → Prop)
  (f : A → B) (l : list A) :
  (∀ a b, a ∈ l → b ∈ l → R a b → R' (f a) (f b)) →
  StronglySorted R l → StronglySorted R' (f <$> l).
Proof.
  intros Hf Hs. induction Hs as [| a l Hs IH Ha]; simpl; [constructor |].
  constructor.
  - apply IH. intros x y Hx Hy. apply Hf; by right.
  - apply Forall_fmap, Forall_forall. intros b Hb. simpl.
    rewrite Forall_forall in Ha. apply Hf; [by left | by right | by apply Ha].
Qed.

(** X24: [topN] returns [min(n, length)] items, highest score first,
    and no item left out scores above one returned. *)
Theorem topN_spec (items : list T) (scoreFn : T → Q) (n : nat) :
  length (topN items scoreFn n) = Nat.min n (length items)
  ∧ StronglySorted (descending scoreFn) (topN items scoreFn n)
  ∧ ∃ rest, topN items scoreFn n ++ rest ≡ₚ items
            ∧ ∀ a b, a ∈ topN items scoreFn n → b ∈ rest →
                (scoreFn b <= scoreFn a)%Q.
Proof.
  unfold topN. cbn [nsub Q_number].
  set (P := List.map (fun item => (item, scoreFn item)) items).
  set (S := Array_sort (fun a b : T * Q => (b.2 - a.2)%Q) P).
  assert (Hperm : S ≡ₚ P) by apply Array_sort_perm.
  assert (Hsorted : StronglySorted (descending snd) S)
    by apply (Array_sort_sorted snd).
  assert (Hscore : ∀ p, p ∈ S → p.2 = scoreFn p.1).
  { intros p Hp. rewrite Hperm in Hp. subst P.
    apply list_elem_of_In, in_map_iff in Hp as (x & <- & _). done. }
  rewrite <- (take_drop n S) in Hsorted.
  split; [| split].
  - rewrite length_map, length_firstn, (Permutation_length Hperm).
    subst P. by rewrite length_map.
  - apply (StronglySorted_fmap (descending snd));
      [| by apply StronglySorted_app_1_l in Hsorted].
    intros a b Ha Hb. unfold descending.
    rewrite (Hscore a), (Hscore b); [done | |];
      rewrite <- (take_drop n S); apply elem_of_app; by left.
  - exists (List.map fst (skipn n S)). split.
    + rewrite <- map_app, firstn_skipn, Hperm. subst P.
      rewrite map_map. simpl. by rewrite map_id.
    + intros a b [pa [-> Ha]]%list_elem_of_fmap [pb [-> Hb]]%list_elem_of_fmap.
      pose proof (StronglySorted_app_1_elem_of _ _ _ _ _ Hsorted Ha Hb) as Hab.
      unfold descending in Hab.
      rewrite <- (Hscore pa), <- (Hscore pb); [done | |].
      * rewrite <- (take_drop n S). apply elem_of_app. by right.
      * rewrite <- (take_drop n S). apply elem_of_app. by left.
Qed.

End Collections.

(** ** Ids and their prefix *)

Section IdPrefix.

Lemma split_not_nil (sep : ascii) (s : string) : split sep s ≠ [].
Proof.
  induction s as [| c s IH]; simpl; [done |].
  destruct (Ascii.eqb c sep); [done |]. by destruct (split sep s).
Qed.

Lemma split_app (sep : ascii) (p rest : string) :
  split sep (p ++ String sep rest)%string
  = split sep p ++ split sep rest.
Proof.
  induction p as [| c p IH]; simpl.
  - by rewrite Ascii.eqb_refl.
  - destruct (Ascii.eqb c sep); [by rewrite IH |].
    rewrite IH. pose proof (split_not_nil sep p).
    by destruct (split sep p).
Qed.

Lemma split_one_part (sep : ascii) (s : string) :
  (length (split sep s) ≤ 1)%nat → split sep s = [s].
Proof.
  induction s as [| c s IH]; simpl; [done |].
  destruct (Ascii.eqb c sep).
  - pose proof (split_not_nil sep s). simpl.
    destruct (split sep s); [done | simpl; lia].
  - pose proof (split_not_nil sep s).
    destruct (split sep s) as [| part parts] eqn:Hs; [done |].
    simpl. intros Hlen. destruct parts; [| simpl in Hlen; lia].
    by injection (IH Hlen) as ->.
Qed.

(** X25: an id generated with a prefix has a prefix, the part of the
    given one before its first colon: [getIdPrefix] gives back the
    prefix [generateId] was called with whenever that has no colon, in
    every environment. *)
Theorem getIdPrefix_generateId {num} (w : World num) (prefix : string) :
  prefix ≠ EmptyString →
  getIdPrefix (generateId (Some prefix) w).1 = head (split ":" prefix)
  ∧ (getIdPrefix prefix = None →
     getIdPrefix (generateId (Some prefix) w).1 = Some prefix).
Proof.
  intros Hne. unfold generateId.
  destruct (Date_now w) as [t w1]. destruct (Math_random w1) as [r w2].
  assert (Ht : truthy (Some prefix) = Some prefix) by by destruct prefix.
  rewrite Ht. cbn [fst].
  set (id := (integer36 t ++ "-" ++ substring 2 13 (fraction36 w2 r))%string).
  assert (Hhead : getIdPrefix (prefix ++ ":" ++ id) = head (split ":" prefix)).
  { unfold getIdPrefix. change (":" ++ id)%string with (String ":" id).
    rewrite split_app. pose proof (split_not_nil ":" prefix).
    pose proof (split_not_nil ":" id).
    destruct (split ":" prefix) as [| p ps]; [done |].
    destruct (split ":" id) as [| q qs]; [done |].
    simpl. rewrite length_app. simpl.
    by destruct (Nat.ltb_spec 1 (S (length ps + S (length qs)))); [| lia]. }
  split; [done |]. rewrite Hhead. unfold getIdPrefix.
  destruct (Nat.ltb_spec 1 (length (split ":" prefix))) as [Hlt | Hle].
  - pose proof (split_not_nil ":" prefix).
    by destruct (split ":" prefix).
  - intros _. by rewrite (split_one_part _ _ Hle).
Qed.

(** X25 at the prefix [causal], the one [createLink] uses. *)
Lemma getIdPrefix_generateId_witness :
  getIdPrefix (generateId (Some "causal")
                 (bench_world (fun _ => 0.5%float))).1 = Some "causal".
Proof.
  by apply (getIdPrefix_generateId (bench_world (fun _ => 0.5%float)) "causal").
Defined.

End IdPrefix.

(** ** Lookup by cause and effect; what discovery files *)

Section DiscoveryExtras.
Context {num : Type} `{JSNumber num} `{!JSSqrt num}.
Implicit Types st : CausalReasoning num.
Local Open Scope num_scope.

(** X26: in every state of the engine, a link that is stored can be
    looked up by its cause and its effect: [findLink] finds a link with
    that effect among those filed under that cause. *)
Theorem findLink_finds st (id : EntityId) (l : CausalLink num) :
  reachable st → getLink st id = Some l →
  ∃ found, findLink st (cause l) (effect l) = Some found
           ∧ effect found = effect l
           ∧ found ∈ getEffects st (cause l).
Proof.
  intros Hreach Hl. apply reachable_ok in Hreach as [H1 H2 _ _ _].
  assert (Hin : l ∈ getEffects st (cause l)).
  { eapply indexed_getEffects; [done | by apply H2]. }
  unfold findLink.
  destruct (List.find _ (getEffects st (cause l))) as [found |] eqn:Hf.
  - exists found. apply find_some in Hf as [Hfin Heq].
    split; [done |]. split; [by apply String.eqb_eq |].
    by apply list_elem_of_In.
  - apply list_elem_of_In in Hin.
    pose proof (find_none _ _ Hf l Hin) as Hno. simpl in Hno.
    by rewrite String.eqb_refl in Hno.
Qed.

Lemma discover_step_ok {V} (observations : list (Observation V)) dom acc entry :
  Forall discovered_ok acc.1.1 →
  Forall discovered_ok (discover_step observations dom acc entry).1.1
  ∧ (length (discover_step observations dom acc entry).1.1
     ≤ Datatypes.S (length acc.1.1))%nat.
Proof.
  destruct acc as [[discovered st] w], entry as [varPair correlation].
  intros Hacc. unfold discover_step. simpl in Hacc.
  destruct (correlation >? n0_7) eqn:Hc; [| split; [done | simpl; lia]].
  destruct (split_pair varPair) as [var1 var2].
  destruct (checkTemporalPrecedence w var1 var2 observations) as [[] w1];
    [| split; [done | simpl; lia]].
  unfold createLink. destruct (generateId (Some "causal") w1) as [id w2].
  destruct (addEdge w2 _ dom _) as [st' w3]. simpl. split.
  - apply Forall_app. split; [done |]. by repeat constructor.
  - rewrite length_app. simpl. lia.
Qed.

(** X27: every link [discoverCausality] returns has a strength above
    0.7, the necessity 0.8 × strength and the sufficiency 0.6 × strength,
    no mechanism and no evidence; and it returns at most one link for
    each ordered pair of variables it has a correlation for. *)
Theorem discoverCausality_links {V} (w : World num) st
  (observations : list (Observation V)) (dom : string) :
  Forall discovered_ok (discoverCausality w st observations dom).1.1
  ∧ (length (discoverCausality w st observations dom).1.1
     ≤ length (computeCorrelations observations))%nat.
Proof.
  unfold discoverCausality.
  assert (Hgen : ∀ entries acc, Forall discovered_ok acc.1.1 →
    Forall discovered_ok
      (fold_left (discover_step observations dom) entries acc).1.1
    ∧ (length (fold_left (discover_step observations dom) entries acc).1.1
       ≤ length acc.1.1 + length entries)%nat).
  { induction entries as [| entry entries IH]; intros acc Hacc; simpl.
    - split; [done | lia].
    - destruct (discover_step_ok observations dom acc entry Hacc) as [Hok Hlen].
      destruct (IH _ Hok) as [Hok' Hlen']. split; [done | lia]. }
  destruct (Hgen (computeCorrelations observations) ([], st, w)) as [Hok Hlen];
    [by constructor |].
  split; [done |]. simpl in Hlen. lia.
Qed.

(** X28: [updateModel] changes one link and nothing else: for a stored
    link, the evidence is appended and every field but the strength and
    the evidence is kept; every other link, both indexes and the graphs
    are as before; for an id that is not stored the engine is
    unchanged. *)
Theorem updateModel_frame st (id : EntityId) (e : Evidence num) :
  let st' := updateModel st id e in
  graphs st' = graphs st
  ∧ linksByCause st' = linksByCause st
  ∧ linksByEffect st' = linksByEffect st
  ∧ (∀ other, other ≠ id → getLink st' other = getLink st other)
  ∧ match getLink st id with
    | None => st' = st
    | Some l =>
        ∃ l', getLink st' id = Some l'
              ∧ evidence l' = evidence l ++ [e]
              ∧ link_id l' = link_id l ∧ cause l' = cause l
              ∧ effect l' = effect l ∧ mechanism l' = mechanism l
              ∧ necessity l' = necessity l ∧ sufficiency l' = sufficiency l
              ∧ timeDelay l' = timeDelay l ∧ conditions l' = conditions l
    end.
Proof.
  unfold updateModel, getLink.
  destruct (links st !! id) as [l |] eqn:Hl; [| done].
  unfold addEvidence. rewrite Hl. cbn -[Nat.max]. rewrite lookup_insert_eq.
  destruct (is_id (supportsHypothesis e) id);
    [| destruct (is_id (contradictsHypothesis e) id)]; cbn -[Nat.max];
    (repeat split; [by intros other Hne; rewrite ?lookup_insert_ne by done |]);
    eexists; (split; [by rewrite lookup_insert_eq |]); done.
Qed.

End DiscoveryExtras.

(** X26 at the store after one [createLink]. *)
Lemma findLink_finds_witness :
  let l := (one_link 0.5%float).1 in
  let st := (one_link 0.5%float).2 in
  ∃ found, findLink st (cause l) (effect l) = Some found
           ∧ effect found = effect l
           ∧ found ∈ getEffects st (cause l).
Proof.
  intros l st. apply (findLink_finds st (link_id l) l).
  - unfold st, one_link. apply reach_createLink, reach_new.
  - by vm_compute.
Defined.

(** ** [conceptSimilarity] and [updateSalience] *)

Section ConceptsAndContexts.

Lemma Set_of_spec (l : list string) :
  NoDup (Set_of l) ∧ ∀ x, x ∈ Set_of l ↔ x ∈ l.
Proof.
  unfold Set_of.
  destruct (set_union_spec l [] (NoDup_nil_2 (A := string))) as [Hnd Hin].
  split; [done |]. intros x. rewrite Hin, elem_of_nil. tauto.
Qed.

Lemma Set_of_NoDup (l : list string) : NoDup l → Set_of l = l.
Proof. intros Hnd. by apply (add_all_fresh l []). Qed.

(** X29: [conceptSimilarity] divides by the size of the union of the
    property keys without testing it: for two concepts without
    properties the result is [NaN], whatever their types.  When the
    first concept has a property, the result is, in exact arithmetic,
    0.3 for equal types plus 0.7 × the Jaccard similarity of the key
    sets, and it is in [0, 1], so the cap at 1 never applies. *)
Theorem conceptSimilarity_spec :
  (∀ c1 c2 : ConceptView,
     property_keys c1 = [] → property_keys c2 = [] →
     PrimFloat.is_nan (conceptSimilarity (num := float) c1 c2) = true)
  ∧ (∀ c1 c2 : ConceptView,
       property_keys c1 ≠ [] →
       (conceptSimilarity (num := Q) c1 c2
        == (if String.eqb (concept_type c1) (concept_type c2)
            then 3 # 10 else 0)
           + (7 # 10) * jaccardSimilarity (num := Q)
                          (Set_of (property_keys c1))
                          (Set_of (property_keys c2)))%Q
       ∧ (0 <= conceptSimilarity (num := Q) c1 c2 <= 1)%Q).
Proof.
  split.
  - intros c1 c2 H1 H2. unfold conceptSimilarity. rewrite H1, H2.
    by destruct (String.eqb _ _); vm_compute.
  - intros c1 c2 Hne.
    destruct (Set_of_spec (property_keys c1)) as [Hnd1 Hin1].
    pose proof (jaccardSimilarity_bounds (Set_of (property_keys c1))
                  (Set_of (property_keys c2)) Hnd1) as HJ.
    unfold conceptSimilarity.
    rewrite (Set_of_NoDup (List.filter _ _)) by by apply NoDup_intersection.
    unfold jaccardSimilarity in *.
    fold (Set_of (Set_of (property_keys c1) ++ Set_of (property_keys c2))) in *.
    set (i := length (List.filter _ _)) in *. set (u := Set_of (_ ++ _)) in *.
    assert (Hu : (0 < length u)%nat).
    { destruct (property_keys c1) as [| k ks] eqn:Hk; [done |].
      assert (Hin : k ∈ u).
      { apply Set_of_spec, elem_of_app. left. apply Hin1. by left. }
      destruct u; [by apply elem_of_nil in Hin | simpl; lia]. }
    rewrite (proj2 (Nat.ltb_lt _ _) Hu) in *.
    cbn [n0 n1 n0_7 n0_3 nadd nmul ndiv of_length Math_min Q_number Q_math] in *.
    set (J := (inject_Z (Z.of_nat i) / inject_Z (Z.of_nat (length u)))%Q) in *.
    set (t := if String.eqb _ _ then _ else _).
    assert (Ht : (0 <= t <= 3 # 10)%Q).
    { subst t. destruct (String.eqb _ _); split; by apply Qle_bool_iff. }
    unfold Q_min. destruct (Qgt_bool _ _) eqn:Hgt.
    + apply Qgt_bool_true in Hgt. split; lra.
    + apply Qgt_bool_false in Hgt. split; lra.
Qed.

End ConceptsAndContexts.

Section Salience.
Context {num : Type} `{JSNumber num} `{JSMath num}.

Lemma map_get_map_delete {V} (m : list (string * V)) (k k' : string) :
  map_get (map_delete k m) k'
  = if String.eqb k' k then None else map_get m k'.
Proof.
  unfold map_delete. induction m as [| [k0 v0] m IH]; simpl.
  - by destruct (String.eqb k' k).
  - destruct (String.eqb_spec k k0) as [-> | Hne]; simpl.
    + rewrite IH. by destruct (String.eqb_spec k' k0).
    + rewrite IH. destruct (String.eqb_spec k' k0) as [-> | Hne']; [| done].
      by destruct (String.eqb_spec k0 k).
Qed.

(** What one round of the loop leaves for the id it is for, and for
    every other id. *)
Lemma salience_step_spec (acc : list (string * num) * list string)
  (id : string) (delta : num) :
  let acc' := salience_step acc (id, delta) in
  ((id ∈ acc'.2 ↔ is_Some (map_get acc'.1 id))
   ∧ ∀ v, map_get acc'.1 id = Some v → ngt v n0_01 = true)
  ∧ ∀ other, other ≠ id →
      (other ∈ acc'.2 ↔ other ∈ acc.2)
      ∧ map_get acc'.1 other = map_get acc.1 other.
Proof.
  destruct acc as [sal active]. unfold salience_step.
  set (updated := Math_max n0 (Math_min n1 _)).
  destruct (ngt updated n0_01) eqn:Hgt; cbn [fst snd].
  - split; [split |].
    + rewrite map_get_map_set, String.eqb_refl, elem_of_set_add.
      split; [by eexists | by right].
    + intros v. rewrite map_get_map_set, String.eqb_refl. by intros [= <-].
    + intros other Hne. rewrite map_get_map_set, elem_of_set_add.
      destruct (String.eqb_spec other id); [done |]. split; [| done].
      split; [by intros [? | ?] | by left].
  - split; [split |].
    + rewrite map_get_map_delete, String.eqb_refl, elem_of_set_delete.
      split; [by intros [_ ?] | by intros [? [=]]].
    + intros v. by rewrite map_get_map_delete, String.eqb_refl.
    + intros other Hne. rewrite map_get_map_delete, elem_of_set_delete.
      destruct (String.eqb_spec other id); [done |]. split; [| done].
      split; [by intros [? _] | by intros ?].
Qed.

Lemma salience_fold (updates : list (string * num)) :
  ∀ acc, NoDup (map_keys updates) →
    let acc' := fold_left salience_step updates acc in
    (∀ id, id ∈ map_keys updates →
       (id ∈ acc'.2 ↔ is_Some (map_get acc'.1 id))
       ∧ ∀ v, map_get acc'.1 id = Some v → ngt v n0_01 = true)
    ∧ ∀ id, id ∉ map_keys updates →
        (id ∈ acc'.2 ↔ id ∈ acc.2) ∧ map_get acc'.1 id = map_get acc.1 id.
Proof.
  induction updates as [| [id0 delta] rest IH]; intros acc Hnd; simpl.
  - split; [| done]. intros id Hid. by apply elem_of_nil in Hid.
  - apply NoDup_cons in Hnd as [Hfresh Hnd].
    destruct (IH (salience_step acc (id0, delta)) Hnd) as [Hin Hout].
    destruct (salience_step_spec acc id0 delta) as [Hself Hother].
    split.
    + intros id [-> | Hid]%elem_of_cons; [| by apply Hin].
      destruct (Hout id0 Hfresh) as [Hmem Hget].
      destruct Hself as [Hiff Hval]. split.
      * by rewrite Hmem, Hget.
      * intros v. rewrite Hget. apply Hval.
    + intros id [Hne Hid]%not_elem_of_cons.
      destruct (Hout id Hid) as [Hmem Hget].
      destruct (Hother id Hne) as [Hmem' Hget'].
      split; [by rewrite Hmem | by rewrite Hget].
Qed.

(** X30: [updateSalience] copies the salience map but not the set of
    active concepts: the argument keeps its salience and has, after the
    call, the set of the context returned.  In the context returned,
    every id of [updates] is active exactly if it has a salience, which
    then is above 0.01; for every other id, activity and salience are
    those of the argument before the call. *)
Theorem updateSalience_spec (context : Context num)
  (updates : list (string * num)) :
  is_map updates →
  let returned := (updateSalience context updates).1 in
  let argument := (updateSalience context updates).2 in
  activeConcepts argument = activeConcepts returned
  ∧ salience argument = salience context
  ∧ (∀ id, id ∈ map_keys updates →
       (id ∈ activeConcepts returned
        ↔ is_Some (map_get (salience returned) id))
       ∧ ∀ v, map_get (salience returned) id = Some v → ngt v n0_01 = true)
  ∧ ∀ id, id ∉ map_keys updates →
      (id ∈ activeConcepts returned ↔ id ∈ activeConcepts context)
      ∧ map_get (salience returned) id = map_get (salience context) id.
Proof.
  intros Hmap. unfold updateSalience.
  pose proof (salience_fold updates
                (salience context, activeConcepts context) Hmap) as Hf.
  destruct (fold_left salience_step updates _) as [newSalience active].
  simpl in *. destruct Hf as [Hin Hout]. done.
Qed.

End Salience.

(** X30 for a context in which [a] is active, and updates that raise
    [b] and lower [a] to nothing. *)
Lemma updateSalience_spec_witness :
  let context :=
    {| activeConcepts := ["a"]; salience := [("a", 0.5%float)] |} in
  let updates := [("b", 0.25%float); ("a", (-0.5)%float)] in
  activeConcepts (updateSalience context updates).2 = ["b"]
  ∧ activeConcepts (updateSalience context updates).2
    = activeConcepts (updateSalience context updates).1.
Proof.
  intros context updates. split; [by vm_compute |].
  apply (updateSalience_spec context updates).
  by apply (bool_decide_unpack _).
Defined.
